(** * PyRisk world: a shallow embedding of [pyrisk/world.py]

    The module keeps one process-wide game state in its globals
    ([_NEIGHBORS], [_TERRITORIES], [_OWNER], [_TROOPS], [_PLAYERS], [_CUR],
    [_LAST]).  The board graph is built once from the text constant
    [CONNECT]; the functional API then reads and mutates the globals.

    Python [int] is modelled by [Z] ([//] is [Z.div], [%] is [Z.modulo]:
    both round towards minus infinity, as Python does), [str] by [string],
    [dict] by stdpp's [gmap], and the globals by a record that every
    operation threads through a state-and-exception monad. *)

From Stdlib Require Import ZArith Strings.String Strings.Ascii List Sorting.Permutation.
From Stdlib Require Import Numbers.DecimalString Numbers.DecimalZ.
From stdpp Require Import gmap strings list fin_maps sorting.

Open Scope string_scope.
Open Scope Z_scope.

(** ** Python string helpers *)

Module PyStr.

(** [str.isspace] on the ASCII range. *)
Definition is_space (c : ascii) : bool :=
  let n := N_of_ascii c in
  ((9 <=? n) && (n <=? 13) || (28 <=? n) && (n <=? 32))%N.

(** line boundaries recognised by [str.splitlines] on the ASCII range,
    carriage return excepted (it is handled with its line feed). *)
Definition is_linebreak (c : ascii) : bool :=
  let n := N_of_ascii c in
  ((10 <=? n) && (n <=? 12) || (28 <=? n) && (n <=? 30))%N.

Definition CR : ascii := ascii_of_N 13.
Definition LF : ascii := ascii_of_N 10.

Fixpoint lstrip (s : string) : string :=
  match s with
  | String c s' => if is_space c then lstrip s' else s
  | EmptyString => EmptyString
  end.

Fixpoint rstrip (s : string) : string :=
  match s with
  | String c s' =>
      match rstrip s' with
      | EmptyString => if is_space c then EmptyString else String c EmptyString
      | r => String c r
      end
  | EmptyString => EmptyString
  end.

(** [s.strip()] *)
Definition strip (s : string) : string := rstrip (lstrip s).

Definition cons_head (c : ascii) (l : list string) : list string :=
  match l with
  | [] => [String c EmptyString]
  | x :: xs => String c x :: xs
  end.

(** [s.splitlines()]: no empty last line for a final line break. *)
Fixpoint splitlines (s : string) : list string :=
  match s with
  | EmptyString => []
  | String c s' =>
      if is_linebreak c then EmptyString :: splitlines s'
      else if Ascii.eqb c CR then
        match s' with
        | String c' s'' =>
            if Ascii.eqb c' LF then EmptyString :: splitlines s''
            else EmptyString :: splitlines s'
        | EmptyString => [EmptyString]
        end
      else cons_head c (splitlines s')
  end.

(** [s.split("--")]: leftmost matches first, never the empty list. *)
Fixpoint split_dashes (s : string) : list string :=
  match s with
  | EmptyString => [EmptyString]
  | String c s' =>
      match s' with
      | String c' s'' =>
          if Ascii.eqb c "-" && Ascii.eqb c' "-"
          then EmptyString :: split_dashes s''
          else cons_head c (split_dashes s')
      | EmptyString => [String c EmptyString]
      end
  end.

(** [sep.join(l)] *)
Fixpoint join (sep : string) (l : list string) : string :=
  match l with
  | [] => EmptyString
  | [x] => x
  | x :: xs => x ++ sep ++ join sep xs
  end.

Fixpoint spaces (n : nat) : string :=
  match n with
  | O => EmptyString
  | S k => String " " (spaces k)
  end.

(** [format(s, "<w>s")]: left-justified in at least [w] columns. *)
Definition ljust (w : nat) (s : string) : string :=
  s ++ spaces (w - String.length s).

(** [format(i, "<w>d")]: right-justified in at least [w] columns. *)
Definition rjust (w : nat) (s : string) : string :=
  spaces (w - String.length s) ++ s.

(** [str(i)] for an [int]. *)
Definition str (z : Z) : string := NilZero.string_of_int (Z.to_int z).

(** [int(s)] on a decimal numeral. *)
Definition int (s : string) : option Z :=
  option_map Z.of_int (NilZero.int_of_string s).

End PyStr.

(** ** Board definition *)

Definition CONNECT : string :=
"Alaska--Northwest Territories--Alberta--Alaska
Alberta--Ontario--Greenland--Northwest Territories
Greenland--Quebec--Ontario--Eastern United States--Quebec
Alberta--Western United States--Ontario--Northwest Territories
Western United States--Eastern United States--Mexico--Western United States

Venezuala--Peru--Argentina--Brazil
Peru--Brazil--Venezuala

North Africa--Egypt--East Africa--North Africa
North Africa--Congo--East Africa--South Africa--Congo
East Africa--Madagascar--South Africa

Indonesia--Western Australia--Eastern Australia--New Guinea--Indonesia
Western Australia--New Guinea

Iceland--Great Britain--Western Europe--Southern Europe--Northern Europe--Western Europe
Northern Europe--Great Britain--Scandanavia--Northern Europe--Ukraine--Scandanavia--Iceland
Southern Europe--Ukraine

Middle East--India--South East Asia--China--Mongolia--Japan--Kamchatka--Yakutsk--Irkutsk--Kamchatka--Mongolia--Irkutsk
Yakutsk--Siberia--Irkutsk
China--Siberia--Mongolia
Siberia--Ural--China--Afghanistan--Ural
Middle East--Afghanistan--India--China

Mexico--Venezuala
Brazil--North Africa
Western Europe--North Africa--Southern Europe--Egypt--Middle East--East Africa
Southern Europe--Middle East--Ukraine--Afghanistan--Ural
Ukraine--Ural
Greenland--Iceland
Alaska--Kamchatka
South East Asia--Indonesia
".

(** ** The adjacency graph, built once *)

(** [_NEIGHBORS] is a [defaultdict(list)]: reading a missing key stores an
    empty list under it and returns that list. *)
Definition dd_get (m : gmap string (list string)) (k : string)
  : list string * gmap string (list string) :=
  match m !! k with
  | Some l => (l, m)
  | None => ([], <[k := []]> m)
  end.

(** [if b not in _NEIGHBORS[a]: _NEIGHBORS[a].append(b)] *)
Definition add_neighbor (a b : string) (m : gmap string (list string))
  : gmap string (list string) :=
  let '(l, m1) := dd_get m a in
  if bool_decide (b ∈ l) then m1 else <[a := (l ++ [b])%list]> m1.

Definition add_edge (m : gmap string (list string)) (ab : string * string)
  : gmap string (list string) :=
  add_neighbor ab.2 ab.1 (add_neighbor ab.1 ab.2 m).

(** [zip(vals, vals[1:])] *)
Definition pairs (vals : list string) : list (string * string) :=
  zip vals (tail vals).

Definition chain_of_line (line : string) : list string :=
  PyStr.strip <$> PyStr.split_dashes line.

Definition build_from (lines : list string) : gmap string (list string) :=
  foldl (λ m line, foldl add_edge m (pairs (chain_of_line line))) ∅ lines.

Definition _build_graph : gmap string (list string) :=
  build_from (PyStr.splitlines (PyStr.strip CONNECT)).

(** [sorted(l)] on names: Python compares [str] by code point, which is
    [String.le] on bytes. *)
Definition sorted (l : list string) : list string := merge_sort String.le l.

(** [_TERRITORIES = sorted(_NEIGHBORS.keys())] *)
Definition _TERRITORIES : list string := sorted (map_to_list _build_graph).*1.

(** The board is a closed term; proof search is not to unfold it. *)
#[global] Typeclasses Opaque _build_graph _TERRITORIES.

(** [n_actions = sum(len(v) for v in _NEIGHBORS.values())], taken at import time. *)
Definition n_actions : Z :=
  foldr (λ kv acc, Z.of_nat (length kv.2) + acc) 0 (map_to_list _build_graph).

(** ** Global game state *)

Inductive exn : Type :=
| KeyError (key : string)
| IndexError
| ZeroDivisionError.

Inductive res (A : Type) : Type :=
| Ret (a : A)
| Raise (e : exn).
Arguments Ret {A} a.
Arguments Raise {A} e.

Record world : Type := World {
  _NEIGHBORS : gmap string (list string);
  _OWNER : gmap string Z;
  _TROOPS : gmap string Z;
  _PLAYERS : list string;
  _CUR : Z;
  _LAST : string
}.

(** The globals as the module leaves them once imported. *)
Definition initial : world :=
  {| _NEIGHBORS := _build_graph; _OWNER := ∅; _TROOPS := ∅;
     _PLAYERS := []; _CUR := 0; _LAST := "" |}.

(** A call either returns or raises; the globals keep whatever was written
    to them before the exception. *)
Definition M (A : Type) : Type := world → res A * world.

#[global] Instance M_ret : MRet M := λ A a w, (Ret a, w).
#[global] Instance M_bind : MBind M := λ A B f m w,
  match m w with
  | (Ret a, w') => f a w'
  | (Raise e, w') => (Raise e, w')
  end.

Definition raise {A} (e : exn) : M A := λ w, (Raise e, w).
Definition gets {A} (f : world → A) : M A := λ w, (Ret (f w), w).
Definition modify (f : world → world) : M unit := λ w, (Ret tt, f w).

Definition set_NEIGHBORS (m : gmap string (list string)) (w : world) : world :=
  {| _NEIGHBORS := m; _OWNER := _OWNER w; _TROOPS := _TROOPS w;
     _PLAYERS := _PLAYERS w; _CUR := _CUR w; _LAST := _LAST w |}.
Definition set_OWNER (m : gmap string Z) (w : world) : world :=
  {| _NEIGHBORS := _NEIGHBORS w; _OWNER := m; _TROOPS := _TROOPS w;
     _PLAYERS := _PLAYERS w; _CUR := _CUR w; _LAST := _LAST w |}.
Definition set_TROOPS (m : gmap string Z) (w : world) : world :=
  {| _NEIGHBORS := _NEIGHBORS w; _OWNER := _OWNER w; _TROOPS := m;
     _PLAYERS := _PLAYERS w; _CUR := _CUR w; _LAST := _LAST w |}.
Definition set_PLAYERS (l : list string) (w : world) : world :=
  {| _NEIGHBORS := _NEIGHBORS w; _OWNER := _OWNER w; _TROOPS := _TROOPS w;
     _PLAYERS := l; _CUR := _CUR w; _LAST := _LAST w |}.
Definition set_CUR (c : Z) (w : world) : world :=
  {| _NEIGHBORS := _NEIGHBORS w; _OWNER := _OWNER w; _TROOPS := _TROOPS w;
     _PLAYERS := _PLAYERS w; _CUR := c; _LAST := _LAST w |}.
Definition set_LAST (s : string) (w : world) : world :=
  {| _NEIGHBORS := _NEIGHBORS w; _OWNER := _OWNER w; _TROOPS := _TROOPS w;
     _PLAYERS := _PLAYERS w; _CUR := _CUR w; _LAST := s |}.

(** [d[k]] on a plain [dict] *)
Definition getitem (d : world → gmap string Z) (k : string) : M Z := λ w,
  match d w !! k with
  | Some v => (Ret v, w)
  | None => (Raise (KeyError k), w)
  end.

(** [_NEIGHBORS[k]] *)
Definition neighbors_getitem (k : string) : M (list string) := λ w,
  let '(l, m) := dd_get (_NEIGHBORS w) k in (Ret l, set_NEIGHBORS m w).

(** [l[i]] on a list: negative indices count from the end. *)
Definition list_getitem {A} (l : list A) (i : Z) : M A := λ w,
  let len := Z.of_nat (length l) in
  let j := if i <? 0 then i + len else i in
  if (j <? 0) || (len <=? j) then (Raise IndexError, w)
  else match l !! Z.to_nat j with
       | Some x => (Ret x, w)
       | None => (Raise IndexError, w)
       end.

(** [a % b] *)
Definition py_mod (a b : Z) : M Z :=
  if b =? 0 then raise ZeroDivisionError else mret (a mod b).

(** ** Functional API *)

(** [f"AI_{i}"] *)
Definition player_name (i : Z) : string := ("AI_" ++ PyStr.str i)%string.

(** [{t: idx % n_players for idx, t in enumerate(deck)}], from index [idx] on;
    a later entry for the same key replaces the earlier one. *)
Fixpoint deal (n_players idx : Z) (deck : list string) (d : gmap string Z)
  : M (gmap string Z) :=
  match deck with
  | [] => mret d
  | t :: deck' =>
      p ← py_mod idx n_players;
      deal n_players (idx + 1) deck' (<[t := p]> d)
  end.

(** [reset(n_players)].  [deck] is the list [random.shuffle] leaves behind:
    some permutation of [_TERRITORIES]. *)
Definition reset (n_players : Z) (deck : list string) : M unit :=
  modify (set_PLAYERS (player_name <$> seqZ 0 n_players));;
  modify (set_CUR 0);;
  modify (set_LAST "Game reset");;
  owners ← deal n_players 0 deck ∅;
  modify (set_OWNER owners);;
  modify (set_TROOPS (foldl (λ d t, <[t := 1]> d) ∅ _TERRITORIES)).

(** [[t for t, p in _OWNER.items() if p == _CUR]]; the names come in the
    order of the map, which is not the insertion order of a [dict]. *)
Definition my_territories : M (list string) :=
  gets (λ w, (filter (λ tp, tp.2 = _CUR w) (map_to_list (_OWNER w))).*1).

Definition get_neighbors (terr : string) : M (list string) :=
  neighbors_getitem terr.

Definition is_enemy (terr : string) : M bool :=
  p ← getitem _OWNER terr;
  cur ← gets _CUR;
  mret (negb (p =? cur)).

Definition troops (terr : string) : M Z := getitem _TROOPS terr.

Definition attack (att tgt : string) : M bool :=
  nb ← neighbors_getitem att;
  if negb (bool_decide (tgt ∈ nb)) then
    modify (set_LAST "Invalid adjacency");; mret false
  else
    oa ← getitem _OWNER att;
    cur ← gets _CUR;
    bad ← (if negb (oa =? cur) then mret true
           else ot ← getitem _OWNER tgt; mret (ot =? cur));
    if bad : bool then
      modify (set_LAST "Invalid ownership");; mret false
    else
      ta ← getitem _TROOPS att;
      td ← getitem _TROOPS tgt;
      if ta <=? td + 1 then
        modify (set_LAST "Not enough troops");; mret false
      else
        modify (λ w, set_OWNER (<[tgt := _CUR w]> (_OWNER w)) w);;
        ta ← getitem _TROOPS att;
        let move := Z.max 1 (ta / 2) in
        ta ← getitem _TROOPS att;
        modify (λ w, set_TROOPS (<[att := ta - move]> (_TROOPS w)) w);;
        modify (λ w, set_TROOPS (<[tgt := move]> (_TROOPS w)) w);;
        cur ← gets _CUR;
        players ← gets _PLAYERS;
        prev ← py_mod (cur - 1) (Z.of_nat (length players));
        me ← list_getitem players cur;
        them ← list_getitem players prev;
        modify (set_LAST (me ++ " took " ++ tgt ++ " from " ++ them)%string);;
        mret true.

Definition owner (terr : string) : M Z := getitem _OWNER terr.

(** [all(owner(t) == first for t in l)]: stops at the first mismatch. *)
Fixpoint all_owned_by (first : Z) (l : list string) : M bool :=
  match l with
  | [] => mret true
  | t :: l' =>
      p ← owner t;
      if p =? first then all_owned_by first l' else mret false
  end.

Definition game_over : M bool :=
  t0 ← list_getitem _TERRITORIES 0;
  first ← owner t0;
  all_owned_by first _TERRITORIES.

Definition next_player : M unit :=
  cur ← gets _CUR;
  players ← gets _PLAYERS;
  c ← py_mod (cur + 1) (Z.of_nat (length players));
  modify (set_CUR c).

Definition current_player : M Z := gets _CUR.

(** [f"{t:24s} troops={_TROOPS[t]:2d} owner=AI{_OWNER[t]}"] *)
Definition line_text (t : string) (n p : Z) : string :=
  (PyStr.ljust 24 t ++ " troops=" ++ PyStr.rjust 2 (PyStr.str n)
   ++ " owner=AI" ++ PyStr.str p)%string.

Definition map_line (t : string) : M string :=
  n ← getitem _TROOPS t;
  p ← getitem _OWNER t;
  mret (line_text t n p).

Fixpoint map_lines (l : list string) : M (list string) :=
  match l with
  | [] => mret []
  | t :: l' => x ← map_line t; xs ← map_lines l'; mret (x :: xs)
  end.

Definition NL : string := String PyStr.LF EmptyString.

Definition get_map : M string :=
  lines ← map_lines _TERRITORIES;
  mret (PyStr.join NL lines).

Definition last_event : M string := gets _LAST.

(** State and result of a call. *)
Definition exec {A} (m : M A) (w : world) : world := (m w).2.
Definition eval {A} (m : M A) (w : world) : res A := (m w).1.

(** ** Drivers: sequences of calls to the public operations *)

Inductive call : Type :=
| Attack (att tgt : string)
| NextPlayer
| MyTerritories
| GetNeighbors (terr : string)
| IsEnemy (terr : string)
| Troops (terr : string)
| Owner (terr : string)
| GameOver
| CurrentPlayer
| GetMap
| LastEvent.

(** The globals after one call, whether it returned or raised. *)
Definition step (w : world) (c : call) : world :=
  match c with
  | Attack att tgt => exec (attack att tgt) w
  | NextPlayer => exec next_player w
  | MyTerritories => exec my_territories w
  | GetNeighbors terr => exec (get_neighbors terr) w
  | IsEnemy terr => exec (is_enemy terr) w
  | Troops terr => exec (troops terr) w
  | Owner terr => exec (owner terr) w
  | GameOver => exec game_over w
  | CurrentPlayer => exec current_player w
  | GetMap => exec get_map w
  | LastEvent => exec last_event w
  end.

Definition run (cs : list call) (w : world) : world := foldl step w cs.

(** ** Vocabulary of the statements *)

(** The list [_NEIGHBORS[k]] evaluates to. *)
Definition adj (m : gmap string (list string)) (k : string) : list string :=
  (dd_get m k).1.

(** [tgt in _NEIGHBORS[att]] *)
Definition adjacent (w : world) (att tgt : string) : Prop :=
  tgt ∈ adj (_NEIGHBORS w) att.

#[global] Instance adjacent_dec w att tgt : Decision (adjacent w att tgt) :=
  decide (tgt ∈ adj (_NEIGHBORS w) att).

(** A rejected attack, as the run shows it: [False] comes back, [msg] is
    recorded, and the store of neighbour lists may have gained an empty
    entry for [att]. *)
Definition rejected (msg : string) (att tgt : string) (w : world) : Prop :=
  attack att tgt w =
    (Ret false, set_LAST msg (set_NEIGHBORS (dd_get (_NEIGHBORS w) att).2 w)).

(** A rejected attack, as a caller sees it. *)
Definition refused (msg : string) (att tgt : string) (w : world) : Prop :=
  let w' := exec (attack att tgt) w in
  eval (attack att tgt) w = Ret false
  ∧ _LAST w' = msg
  ∧ _OWNER w' = _OWNER w
  ∧ _TROOPS w' = _TROOPS w
  ∧ _CUR w' = _CUR w
  ∧ _PLAYERS w' = _PLAYERS w.

(** Number of territories player [p] owns. *)
Definition owned (w : world) (p : Z) : nat :=
  length (filter (λ t, _OWNER w !! t = Some p) _TERRITORIES).

(** Every pair of consecutive names of every chain of [CONNECT]. *)
Definition edges : list (string * string) :=
  PyStr.splitlines (PyStr.strip CONNECT) ≫= (λ line, pairs (chain_of_line line)).

(** What holds of the three stores in any state of the process: the
    neighbour lists are those of the built graph (reading an unknown key
    only ever adds an empty list), and the two dictionaries have no key
    that is not a territory. *)
Record store_ok (w : world) : Prop := StoreOk {
  store_graph : ∀ k, adj (_NEIGHBORS w) k = adj _build_graph k;
  store_owner_dom : ∀ t, is_Some (_OWNER w !! t) → t ∈ _TERRITORIES;
  store_troops_dom : ∀ t, is_Some (_TROOPS w !! t) → t ∈ _TERRITORIES
}.

(** What a game in progress with [n] players keeps true. *)
Record inv (n : Z) (w : world) : Prop := Inv {
  inv_players : _PLAYERS w = player_name <$> seqZ 0 n;
  inv_cur : 0 ≤ _CUR w < n;
  inv_owner : ∀ t, t ∈ _TERRITORIES → ∃ p, _OWNER w !! t = Some p ∧ 0 ≤ p < n;
  inv_troops : ∀ t, t ∈ _TERRITORIES → ∃ k, _TROOPS w !! t = Some k ∧ 1 ≤ k;
  inv_store : store_ok w
}.

(** The states of a process: the module is imported, then [reset] and the
    other operations are called in any order, with any arguments. *)
Inductive session : world → Prop :=
| session_import : session initial
| session_reset n deck w :
    deck ≡ₚ _TERRITORIES → session w → session (exec (reset n deck) w)
| session_call c w : session w → session (step w c).

(** Every character of [s] passes [f]. *)
Fixpoint all_chars (f : ascii → bool) (s : string) : bool :=
  match s with
  | EmptyString => true
  | String c s' => f c && all_chars f s'
  end.

(** The characters [str] writes for an [int]. *)
Definition numeral_char (c : ascii) : bool :=
  let n := N_of_ascii c in ((48 <=? n) && (n <=? 57) || (n =? 45))%N.

(** The characters that end no line. *)
Definition inline_char (c : ascii) : bool :=
  negb (PyStr.is_linebreak c) && negb (Ascii.eqb c PyStr.CR).

(** ** A reader for the lines of the map dump *)

Module MapLine.

(** [s[:n]] *)
Fixpoint take (n : nat) (s : string) : string :=
  match n, s with
  | S k, String c s' => String c (take k s')
  | _, _ => EmptyString
  end.

(** [s[n:]] *)
Fixpoint drop (n : nat) (s : string) : string :=
  match n, s with
  | S k, String _ s' => drop k s'
  | _, _ => s
  end.

(** [s[len(p):] if s.startswith(p)] *)
Fixpoint after (p s : string) : option string :=
  match p, s with
  | EmptyString, _ => Some s
  | String a p', String b s' => if Ascii.eqb a b then after p' s' else None
  | String _ _, EmptyString => None
  end.

(** [s.split(" ", 1)] on a string with a space in it; the space stays
    with the second part. *)
Fixpoint field (s : string) : string * string :=
  match s with
  | EmptyString => (EmptyString, EmptyString)
  | String c s' =>
      if Ascii.eqb c " " then (EmptyString, s)
      else let '(f, r) := field s' in (String c f, r)
  end.

(** Name from the first 24 columns, then the two numbers. *)
Definition parse (line : string) : option (string * Z * Z) :=
  let name := PyStr.rstrip (take 24 line) in
  r1 ← after " troops=" (drop 24 line);
  let '(num, r2) := field (PyStr.lstrip r1) in
  r3 ← after " owner=AI" r2;
  n ← PyStr.int num;
  p ← PyStr.int r3;
  Some (name, n, p).

End MapLine.

(** A state for the worked examples: two players, the deck left in sorted
    order, and ten troops put on Alberta by hand. *)
Definition fresh2 : world := exec (reset 2 _TERRITORIES) initial.
Definition forced : world :=
  set_TROOPS (<["Alberta" := 10]> (_TROOPS fresh2)) fresh2.

(** A last-capture state: as [forced], but player 0 owns everything except
    Alaska. *)
Definition endgame : world :=
  set_OWNER (<["Alaska" := 1]> ((λ _, 0) <$> _OWNER forced)) forced.

(** ** OO wrapper *)

(** [class World]: every method hands over to the function of the same
    name; [__init__] and [reset] take no player count and start a
    four-player game. *)
Module WorldClass.

Definition init (deck : list string) : M unit := reset 4 deck.
Definition reset (deck : list string) : M unit := reset 4 deck.
Definition my_territories : M (list string) := my_territories.
Definition get_neighbors (t : string) : M (list string) := get_neighbors t.
Definition is_enemy (t : string) : M bool := is_enemy t.
Definition troops (t : string) : M Z := troops t.
Definition attack (a b : string) : M bool := attack a b.
Definition owner (t : string) : M Z := owner t.
Definition game_over : M bool := game_over.
Definition next_player : M unit := next_player.
Definition current_player : M Z := current_player.
Definition territories : list string := _TERRITORIES.
Definition get_map : M string := get_map.
Definition last_event : M string := last_event.

End WorldClass.

(** ** More vocabulary *)

(** Troops on the board, all territories together. *)
Definition total_troops (w : world) : Z :=
  foldr (λ t acc, default 0 (_TROOPS w !! t) + acc) 0 _TERRITORIES.

(** The pairs [(att, tgt)] that pass the adjacency check of [attack]. *)
Definition actions : list (string * string) :=
  _TERRITORIES ≫= (λ a, pair a <$> adj _build_graph a).

(** No key is stored with an empty list. *)
Definition no_empty (m : gmap string (list string)) : Prop :=
  ∀ k l, m !! k = Some l → l ≠ [].

(** The globals before the first [reset]. *)
Record unset (w : world) : Prop := Unset {
  unset_owner : _OWNER w = ∅;
  unset_troops : _TROOPS w = ∅;
  unset_players : _PLAYERS w = [];
  unset_graph : ∀ k, adj (_NEIGHBORS w) k = adj _build_graph k
}.

(** * Worked examples *)

Lemma _TERRITORIES_unfold : _TERRITORIES = sorted (map_to_list _build_graph).*1.
Proof. reflexivity. Qed.

Lemma _build_graph_unfold :
  _build_graph = build_from (PyStr.splitlines (PyStr.strip CONNECT)).
Proof. reflexivity. Qed.

(** From here on the board is only ever evaluated as a whole. *)
#[global] Opaque _build_graph _TERRITORIES.

Example strip_ex : PyStr.strip "  a b
" = "a b".
Proof. reflexivity. Qed.

Example splitlines_ex : PyStr.splitlines "a--b

c
" = ["a--b"; ""; "c"].
Proof. reflexivity. Qed.

Example split_dashes_ex : PyStr.split_dashes "a---b--c" = ["a"; "-b"; "c"].
Proof. reflexivity. Qed.

Example split_dashes_blank : PyStr.split_dashes "" = [""].
Proof. reflexivity. Qed.

Example str_ex : (PyStr.str 0, PyStr.str 42, PyStr.str (-7)) = ("0", "42", "-7").
Proof. reflexivity. Qed.

Example rjust_ex : (PyStr.rjust 2 (PyStr.str 5), PyStr.rjust 2 (PyStr.str 123)) = (" 5", "123").
Proof. reflexivity. Qed.


Example attack_rejected_after_reset :
  eval (attack "Alaska" "Alberta") fresh2 = Ret false.
Proof. by vm_compute. Qed.

Example attack_forced :
  eval (attack "Alberta" "Alaska") forced = Ret true
  ∧ _LAST (exec (attack "Alberta" "Alaska") forced) = "AI_0 took Alaska from AI_1".
Proof. split; by vm_compute. Qed.

Example reset_zero_players :
  eval (reset 0 _TERRITORIES) initial = Raise ZeroDivisionError.
Proof. by vm_compute. Qed.

Example n_actions_value : n_actions = 166.
Proof. by vm_compute. Qed.

(** * Properties *)

(** ** Running the monad *)

Ltac unfold_M :=
  unfold exec, eval, mbind, M_bind, mret, M_ret, raise, gets, modify,
    getitem, neighbors_getitem, py_mod in *.

(** Case analysis along the control flow of an operation: innermost
    scrutinee first. *)
Ltac split_M :=
  repeat (simpl in *; unfold_M; unfold list_getitem in *;
    match goal with
    | |- context [match ?x with _ => _ end] =>
        lazymatch x with
        | context [match _ with _ => _ end] => fail
        | _ => destruct x eqn:?
        end
    end; simplify_eq).

Lemma adj_lookup m k : adj m k = default [] (m !! k).
Proof. unfold adj, dd_get. by destruct (m !! k). Qed.

Lemma adj_dd_get m k j : adj (dd_get m k).2 j = adj m j.
Proof.
  rewrite !adj_lookup. unfold dd_get.
  destruct (m !! k) eqn:Hk; simpl; [done|].
  destruct (decide (k = j)) as [->|Hne].
  - by rewrite lookup_insert_eq, Hk.
  - by rewrite lookup_insert_ne.
Qed.

Lemma players_length n : 0 ≤ n → Z.of_nat (length (player_name <$> seqZ 0 n)) = n.
Proof. intros. rewrite length_fmap, length_seqZ. lia. Qed.

Lemma players_getitem n i w :
  0 ≤ i < n →
  list_getitem (player_name <$> seqZ 0 n) i w = (Ret (player_name i), w).
Proof.
  intros Hi. unfold list_getitem.
  rewrite players_length by lia.
  assert ((i <? 0) = false) as -> by lia.
  assert (((i <? 0) || (n <=? i)) = false) as -> by lia.
  rewrite list_lookup_fmap, lookup_seqZ_lt by lia.
  simpl. do 3 f_equal. lia.
Qed.

(** ** [attack]: the successful path *)

Section attack_success.
Variables (w : world) (att tgt : string) (n q a b : Z).
Hypothesis Hadj : adjacent w att tgt.
Hypothesis Hatt : _OWNER w !! att = Some (_CUR w).
Hypothesis Htgt : _OWNER w !! tgt = Some q.
Hypothesis Henemy : q ≠ _CUR w.
Hypothesis Ha : _TROOPS w !! att = Some a.
Hypothesis Hb : _TROOPS w !! tgt = Some b.
Hypothesis Hforce : a > b + 1.
Hypothesis Hplayers : _PLAYERS w = player_name <$> seqZ 0 n.
Hypothesis Hcur : 0 ≤ _CUR w < n.

Local Abbreviation move := (Z.max 1 (a / 2)).

Lemma attack_success_run :
  attack att tgt w =
    (Ret true,
     set_LAST (player_name (_CUR w) ++ " took " ++ tgt ++ " from "
               ++ player_name ((_CUR w - 1) mod n))
       (set_TROOPS (<[tgt := move]> (<[att := a - move]> (_TROOPS w)))
          (set_OWNER (<[tgt := _CUR w]> (_OWNER w))
             (set_NEIGHBORS (dd_get (_NEIGHBORS w) att).2 w)))).
Proof using All.
  assert (att ≠ tgt) as Hne by (intros ->; congruence).
  unfold adjacent, adj in Hadj.
  assert ((q =? _CUR w) = false) as Hq by lia.
  assert ((a <=? b + 1) = false) as Hlt by lia.
  assert ((n =? 0) = false) as Hn by lia.
  pose proof (players_length n ltac:(lia)) as Hlen.
  unfold attack, neighbors_getitem, mbind, M_bind.
  destruct (dd_get (_NEIGHBORS w) att) as [nb m] eqn:Hdd; simpl in *.
  rewrite bool_decide_eq_true_2 by done.
  repeat (progress (simpl; unfold_M;
    rewrite ?Hatt, ?Htgt, ?Ha, ?Hb, ?Z.eqb_refl, ?Hq, ?Hlt, ?Hplayers, ?Hlen, ?Hn)).
  rewrite players_getitem by lia.
  rewrite players_getitem by (apply Z.mod_pos_bound; lia).
  done.
Qed.

End attack_success.

(** ** [attack]: every path *)

Lemma attack_invalid_adjacency att tgt w :
  ¬ adjacent w att tgt → rejected "Invalid adjacency" att tgt w.
Proof.
  unfold adjacent, adj, rejected, attack. intros Hadj. unfold_M.
  destruct (dd_get (_NEIGHBORS w) att) as [nb m]; simpl in *.
  by rewrite bool_decide_eq_false_2.
Qed.

Lemma attack_invalid_ownership att tgt w oa :
  adjacent w att tgt →
  _OWNER w !! att = Some oa →
  oa ≠ _CUR w ∨ _OWNER w !! tgt = Some (_CUR w) →
  rejected "Invalid ownership" att tgt w.
Proof.
  unfold adjacent, adj, rejected, attack. intros Hadj Hoa Hbad. unfold_M.
  destruct (dd_get (_NEIGHBORS w) att) as [nb m]; simpl in *.
  rewrite bool_decide_eq_true_2 by done. simpl. rewrite Hoa. simpl.
  destruct (Z.eqb_spec oa (_CUR w)) as [-> | Hne]; simpl; [|done].
  destruct Hbad as [? | ->]; [done|]. by rewrite Z.eqb_refl.
Qed.

Lemma attack_not_enough_troops att tgt w q a b :
  adjacent w att tgt →
  _OWNER w !! att = Some (_CUR w) →
  _OWNER w !! tgt = Some q → q ≠ _CUR w →
  _TROOPS w !! att = Some a → _TROOPS w !! tgt = Some b →
  a ≤ b + 1 →
  rejected "Not enough troops" att tgt w.
Proof.
  unfold adjacent, adj, rejected, attack. intros Hadj Hoa Hot Hq Ha Hb Hle. unfold_M.
  destruct (dd_get (_NEIGHBORS w) att) as [nb m]; simpl in *.
  assert ((q =? _CUR w) = false) as Hq' by lia.
  assert ((a <=? b + 1) = true) as Hle' by lia.
  rewrite bool_decide_eq_true_2 by done.
  by repeat (progress (simpl;
    rewrite ?Hoa, ?Hot, ?Ha, ?Hb, ?Z.eqb_refl, ?Hq', ?Hle')).
Qed.

Lemma rejected_refused msg att tgt w :
  rejected msg att tgt w → refused msg att tgt w.
Proof. unfold rejected, refused, eval, exec. by intros ->. Qed.

(** Whatever happens, only [att] and [tgt] can change hands or strength. *)
Lemma attack_frame att tgt w t :
  t ≠ att → t ≠ tgt →
  _OWNER (exec (attack att tgt) w) !! t = _OWNER w !! t
  ∧ _TROOPS (exec (attack att tgt) w) !! t = _TROOPS w !! t.
Proof.
  intros Ha Ht. unfold attack.
  split; split_M; simpl; rewrite ?lookup_insert_ne by done; done.
Qed.

Lemma attack_CUR att tgt w : _CUR (exec (attack att tgt) w) = _CUR w.
Proof. unfold attack. split_M; done. Qed.

Lemma attack_PLAYERS att tgt w : _PLAYERS (exec (attack att tgt) w) = _PLAYERS w.
Proof. unfold attack. split_M; done. Qed.

Lemma attack_NEIGHBORS att tgt w k :
  adj (_NEIGHBORS (exec (attack att tgt) w)) k = adj (_NEIGHBORS w) k.
Proof.
  unfold attack. unfold_M.
  pose proof (adj_dd_get (_NEIGHBORS w) att k) as Hk.
  destruct (dd_get (_NEIGHBORS w) att) as [nb m]; simpl in *.
  split_M; done.
Qed.

(** ** The example states *)

Lemma fresh2_PLAYERS : _PLAYERS fresh2 = ["AI_0"; "AI_1"].
Proof. by vm_compute. Qed.

Lemma fresh2_CUR : _CUR fresh2 = 0.
Proof. by vm_compute. Qed.

Lemma forced_adjacent : adjacent forced "Alberta" "Alaska".
Proof. apply (bool_decide_unpack _). by vm_compute. Qed.

Lemma fresh2_not_adjacent : ¬ adjacent fresh2 "Alaska" "Peru".
Proof. apply (bool_decide_unpack _). by vm_compute. Qed.

Lemma fresh2_adjacent : adjacent fresh2 "Alberta" "Alaska".
Proof. apply (bool_decide_unpack _). by vm_compute. Qed.

(** ** The contract of [attack] *)

(** C1: when [tgt] is in [att]'s adjacency list, [att] belongs to the
    current player, [tgt] does not, and [troops(att) > troops(tgt) + 1],
    [attack(att, tgt)] returns [True], gives [tgt] to the current player,
    moves [max(1, troops(att) // 2)] troops (floor division) out of [att],
    leaves exactly that many on [tgt], and records
    ["<AI name of current> took <tgt> from <AI name of (current - 1) mod
    n_players>"], whoever owned [tgt] before. *)
Theorem attack_succeeds (w : world) (att tgt : string) (n q a b : Z) :
  adjacent w att tgt →
  _OWNER w !! att = Some (_CUR w) →
  _OWNER w !! tgt = Some q → q ≠ _CUR w →
  _TROOPS w !! att = Some a → _TROOPS w !! tgt = Some b →
  a > b + 1 →
  _PLAYERS w = player_name <$> seqZ 0 n → 0 ≤ _CUR w < n →
  let move := Z.max 1 (a / 2) in
  let w' := exec (attack att tgt) w in
  eval (attack att tgt) w = Ret true
  ∧ _OWNER w' !! tgt = Some (_CUR w)
  ∧ _TROOPS w' !! att = Some (a - move)
  ∧ _TROOPS w' !! tgt = Some move
  ∧ _LAST w' = (player_name (_CUR w) ++ " took " ++ tgt ++ " from "
                ++ player_name ((_CUR w - 1) mod n))%string.
Proof.
  intros Hadj Hatt Htgt Hq Ha Hb Hforce Hpl Hcur move w'.
  assert (att ≠ tgt) as Hne by (intros ->; congruence).
  subst w'. unfold eval, exec.
  rewrite (attack_success_run w att tgt n q a b) by done. simpl.
  repeat split.
  - apply lookup_insert_eq.
  - by rewrite lookup_insert_ne, lookup_insert_eq.
  - apply lookup_insert_eq.
Qed.

Lemma attack_succeeds_forced :
  eval (attack "Alberta" "Alaska") forced = Ret true
  ∧ _OWNER (exec (attack "Alberta" "Alaska") forced) !! "Alaska" = Some 0
  ∧ _TROOPS (exec (attack "Alberta" "Alaska") forced) !! "Alberta" = Some 5
  ∧ _TROOPS (exec (attack "Alberta" "Alaska") forced) !! "Alaska" = Some 5
  ∧ _LAST (exec (attack "Alberta" "Alaska") forced) = "AI_0 took Alaska from AI_1".
Proof.
  apply (attack_succeeds forced "Alberta" "Alaska" 2 1 10 1).
  - exact forced_adjacent.
  - vm_compute; reflexivity.
  - vm_compute; reflexivity.
  - vm_compute; discriminate.
  - vm_compute; reflexivity.
  - vm_compute; reflexivity.
  - lia.
  - vm_compute; reflexivity.
  - vm_compute; split; [discriminate | reflexivity].
Defined.

(** C9: whether [attack(att, tgt)] succeeds, is rejected or raises, the
    owner and the troop count of every territory other than [att] and
    [tgt] stay as they were, and so does the turn pointer. *)
Theorem attack_touches_only_its_arguments (w : world) (att tgt : string) :
  let w' := exec (attack att tgt) w in
  (∀ t, t ≠ att → t ≠ tgt →
     _OWNER w' !! t = _OWNER w !! t ∧ _TROOPS w' !! t = _TROOPS w !! t)
  ∧ _CUR w' = _CUR w.
Proof.
  split.
  - intros t Ha Ht. by apply attack_frame.
  - apply attack_CUR.
Qed.

(** C2, with the messages spelt as the code records them ("Invalid
    adjacency", "Invalid ownership", "Not enough troops"): the three
    checks run in this order and the first that fails decides; a rejected
    attack returns [False] and changes no owner, no troop count and not
    the turn pointer; with checks 1 and 2 passed and
    [troops(att) = troops(tgt) + 2] the attack succeeds. *)
Theorem attack_validation (w : world) (att tgt : string) :
  (¬ adjacent w att tgt → refused "Invalid adjacency" att tgt w)
  ∧ (∀ oa,
       adjacent w att tgt →
       _OWNER w !! att = Some oa →
       oa ≠ _CUR w ∨ _OWNER w !! tgt = Some (_CUR w) →
       refused "Invalid ownership" att tgt w)
  ∧ (∀ q a b,
       adjacent w att tgt →
       _OWNER w !! att = Some (_CUR w) →
       _OWNER w !! tgt = Some q → q ≠ _CUR w →
       _TROOPS w !! att = Some a → _TROOPS w !! tgt = Some b →
       a ≤ b + 1 →
       refused "Not enough troops" att tgt w)
  ∧ (∀ q a b n,
       adjacent w att tgt →
       _OWNER w !! att = Some (_CUR w) →
       _OWNER w !! tgt = Some q → q ≠ _CUR w →
       _TROOPS w !! att = Some a → _TROOPS w !! tgt = Some b →
       a = b + 2 →
       _PLAYERS w = player_name <$> seqZ 0 n → 0 ≤ _CUR w < n →
       eval (attack att tgt) w = Ret true).
Proof.
  repeat split.
  1-6: by intros; eapply rejected_refused, attack_invalid_adjacency.
  1-6: by intros; eapply rejected_refused, attack_invalid_ownership.
  1-6: by intros; eapply rejected_refused, attack_not_enough_troops.
  intros q a b n Hadj Hatt Htgt Hq Ha Hb Hab Hpl Hcur. unfold eval.
  by rewrite (attack_success_run w att tgt n q a b) by (done || lia).
Qed.

Lemma attack_validation_fresh2 :
  refused "Invalid adjacency" "Alaska" "Peru" fresh2
  ∧ refused "Invalid ownership" "Alaska" "Alberta" fresh2
  ∧ refused "Not enough troops" "Alberta" "Alaska" fresh2
  ∧ eval (attack "Alberta" "Alaska")
      (set_TROOPS (<["Alberta" := 3]> (_TROOPS fresh2)) fresh2) = Ret true.
Proof.
  split; [|split; [|split]].
  - apply (attack_validation fresh2 "Alaska" "Peru"). exact fresh2_not_adjacent.
  - apply (proj1 (proj2 (attack_validation fresh2 "Alaska" "Alberta")) 1).
    + apply (bool_decide_unpack _). by vm_compute.
    + vm_compute; reflexivity.
    + left. vm_compute; discriminate.
  - apply (proj1 (proj2 (proj2 (attack_validation fresh2 "Alberta" "Alaska"))) 1 1 1).
    + exact fresh2_adjacent.
    + vm_compute; reflexivity.
    + vm_compute; reflexivity.
    + vm_compute; discriminate.
    + vm_compute; reflexivity.
    + vm_compute; reflexivity.
    + lia.
  - apply (proj2 (proj2 (proj2 (attack_validation
             (set_TROOPS (<["Alberta" := 3]> (_TROOPS fresh2)) fresh2)
             "Alberta" "Alaska"))) 1 3 1 2).
    + apply (bool_decide_unpack _). by vm_compute.
    + vm_compute; reflexivity.
    + vm_compute; reflexivity.
    + vm_compute; discriminate.
    + vm_compute; reflexivity.
    + vm_compute; reflexivity.
    + lia.
    + vm_compute; reflexivity.
    + vm_compute; split; [discriminate | reflexivity].
Defined.

(** C2 as worded fails on the text of the message: a rejected attack
    between territories that do not touch records "Invalid adjacency", with
    a capital, not "invalid adjacency". *)
Lemma attack_message_is_capitalised :
  ¬ adjacent fresh2 "Alaska" "Peru"
  ∧ eval (attack "Alaska" "Peru") fresh2 = Ret false
  ∧ _LAST (exec (attack "Alaska" "Peru") fresh2) ≠ "invalid adjacency".
Proof.
  split; [exact fresh2_not_adjacent|]. split; [by vm_compute|].
  vm_compute. discriminate.
Qed.

(** ** The board as built *)

Lemma _TERRITORIES_value :
  _TERRITORIES =
    ["Afghanistan"; "Alaska"; "Alberta"; "Argentina"; "Brazil"; "China";
     "Congo"; "East Africa"; "Eastern Australia"; "Eastern United States";
     "Egypt"; "Great Britain"; "Greenland"; "Iceland"; "India";
     "Indonesia"; "Irkutsk"; "Japan"; "Kamchatka"; "Madagascar"; "Mexico";
     "Middle East"; "Mongolia"; "New Guinea"; "North Africa";
     "Northern Europe"; "Northwest Territories"; "Ontario"; "Peru";
     "Quebec"; "Scandanavia"; "Siberia"; "South Africa";
     "South East Asia"; "Southern Europe"; "Ukraine"; "Ural"; "Venezuala";
     "Western Australia"; "Western Europe"; "Western United States";
     "Yakutsk"].
Proof. by vm_compute. Qed.

Lemma _TERRITORIES_keys t : t ∈ _TERRITORIES ↔ is_Some (_build_graph !! t).
Proof.
  rewrite _TERRITORIES_unfold. unfold sorted. rewrite merge_sort_Permutation.
  rewrite list_elem_of_fmap. split.
  - intros [[k l] [-> Hkl]]. apply elem_of_map_to_list in Hkl. by eexists.
  - intros [l Hl]. exists (t, l). split; [done|]. by apply elem_of_map_to_list.
Qed.

Lemma _TERRITORIES_NoDup : NoDup _TERRITORIES.
Proof.
  rewrite _TERRITORIES_unfold. unfold sorted. rewrite merge_sort_Permutation.
  apply NoDup_fst_map_to_list.
Qed.

Lemma _TERRITORIES_sorted : StronglySorted String.le _TERRITORIES.
Proof. rewrite _TERRITORIES_unfold. apply StronglySorted_merge_sort; apply _. Qed.

(** Every name in a neighbour list is itself a key of the graph. *)
Lemma graph_closed k l x :
  _build_graph !! k = Some l → x ∈ l → x ∈ _TERRITORIES.
Proof.
  assert (map_Forall (λ _ l, Forall (λ x, x ∈ _TERRITORIES) l) _build_graph) as H.
  { apply (bool_decide_unpack _). by vm_compute. }
  intros Hk Hx. specialize (H k l Hk). simpl in H.
  rewrite Forall_forall in H. by apply H.
Qed.

Lemma adjacent_territories w att tgt :
  store_ok w → adjacent w att tgt → att ∈ _TERRITORIES ∧ tgt ∈ _TERRITORIES.
Proof.
  intros Hok. unfold adjacent. rewrite (store_graph _ Hok), adj_lookup.
  destruct (_build_graph !! att) as [l|] eqn:Hl; simpl.
  - intros Hin. split; [apply _TERRITORIES_keys; by eexists|].
    by eapply graph_closed.
  - intros []%elem_of_nil.
Qed.

(** ** [reset] *)

Lemma deal_run n idx deck d w :
  n ≠ 0 →
  ∃ d', deal n idx deck d w = (Ret d', w)
    ∧ (∀ t, t ∉ deck → d' !! t = d !! t)
    ∧ (∀ t, t ∈ deck → ∃ i, deck !! i = Some t
                          ∧ d' !! t = Some ((idx + Z.of_nat i) mod n))
    ∧ (NoDup deck → ∀ i t, deck !! i = Some t →
                           d' !! t = Some ((idx + Z.of_nat i) mod n)).
Proof.
  intros Hn. revert idx d.
  induction deck as [|t0 deck IH]; intros idx d.
  - exists d. split; [done|]. split; [done|]. split.
    + intros t []%elem_of_nil.
    + intros _ i t Hi. by rewrite lookup_nil in Hi.
  - simpl. unfold_M. destruct (Z.eqb_spec n 0) as [|_]; [done|]. simpl.
    destruct (IH (idx + 1) (<[t0 := idx mod n]> d)) as (d' & -> & Hout & Hin & Hnd).
    exists d'. split; [done|]. split; [|split].
    + intros t [Ht0 Ht]%not_elem_of_cons.
      by rewrite Hout, lookup_insert_ne.
    + intros t Ht. destruct (decide (t ∈ deck)) as [Hd|Hd].
      * destruct (Hin t Hd) as (i & Hi & ->). exists (S i).
        split; [done|]. do 2 f_equal. lia.
      * apply elem_of_cons in Ht as [->|?]; [|done].
        exists 0%nat. split; [done|].
        rewrite Hout, lookup_insert_eq by done. do 2 f_equal. lia.
    + intros [Ht0 Hdeck]%NoDup_cons [|i] t Hi; simpl in Hi.
      * simplify_eq. rewrite Hout, lookup_insert_eq by done.
        do 2 f_equal. lia.
      * rewrite (Hnd Hdeck i t Hi). do 2 f_equal. lia.
Qed.

Lemma one_troop_each (l : list string) (d : gmap string Z) t :
  foldl (λ d t, <[t := 1]> d) d l !! t
  = if decide (t ∈ l) then Some 1 else d !! t.
Proof.
  revert d. induction l as [|x l IH]; intros d; simpl.
  - destruct (decide (t ∈ [])) as [[]%elem_of_nil|]; done.
  - rewrite IH.
    destruct (decide (t ∈ l)) as [H1|H1], (decide (t ∈ x :: l)) as [H2|H2];
      try done.
    + destruct H2. by right.
    + apply elem_of_cons in H2 as [-> | ?]; [|done].
      by rewrite lookup_insert_eq.
    + rewrite lookup_insert_ne; [done|]. intros ->. apply H2. by left.
Qed.

Lemma reset_run n deck w :
  n ≠ 0 →
  ∃ owners,
    reset n deck w =
      (Ret (),
       {| _NEIGHBORS := _NEIGHBORS w; _OWNER := owners;
          _TROOPS := foldl (λ d t, <[t := 1]> d) ∅ _TERRITORIES;
          _PLAYERS := player_name <$> seqZ 0 n; _CUR := 0;
          _LAST := "Game reset" |})
    ∧ (∀ t, t ∉ deck → owners !! t = None)
    ∧ (∀ t, t ∈ deck → ∃ i, deck !! i = Some t
                          ∧ owners !! t = Some (Z.of_nat i mod n))
    ∧ (NoDup deck → ∀ i t, deck !! i = Some t →
                           owners !! t = Some (Z.of_nat i mod n)).
Proof.
  intros Hn. unfold reset. unfold_M. simpl.
  match goal with |- context [deal n 0 deck ∅ ?w0] =>
    destruct (deal_run n 0 deck ∅ w0 Hn) as (d' & -> & Hout & Hin & Hnd) end.
  exists d'. split; [done|]. split; [|split].
  - intros t Ht. by rewrite Hout.
  - intros t Ht. destruct (Hin t Ht) as (i & Hi & Hd). eauto.
  - intros Hdeck i t Hi. by rewrite (Hnd Hdeck i t Hi).
Qed.

(** ** Counting the deal *)

Lemma succ_div_mod x n :
  0 < n → 0 ≤ x →
  (x mod n + 1 < n ∧ (x + 1) / n = x / n ∧ (x + 1) mod n = x mod n + 1)
  ∨ (x mod n + 1 = n ∧ (x + 1) / n = x / n + 1 ∧ (x + 1) mod n = 0).
Proof.
  intros Hn Hx.
  pose proof (Z.div_mod x n ltac:(lia)) as Hdm.
  pose proof (Z.mod_pos_bound x n Hn) as Hr.
  destruct (decide (x mod n + 1 < n)) as [Hlt|Hge]; [left|right].
  - split; [done|]. split; symmetry.
    + apply (Z.div_unique_pos _ _ _ (x mod n + 1)); lia.
    + apply (Z.mod_unique_pos _ _ (x / n)); lia.
  - split; [lia|]. split; symmetry.
    + apply (Z.div_unique_pos _ _ _ 0); lia.
    + apply (Z.mod_unique_pos _ _ (x / n + 1)); lia.
Qed.

(** Among the indices [0 .. L-1], those congruent to [p] modulo [n]. *)
Lemma count_mod n p (L : nat) :
  0 < n → 0 ≤ p < n →
  Z.of_nat (length (filter (λ i, i mod n = p) (seqZ 0 (Z.of_nat L))))
  = Z.of_nat L / n + (if decide (p < Z.of_nat L mod n) then 1 else 0).
Proof.
  intros Hn Hp. induction L as [|L IH].
  - simpl. rewrite Z.div_0_l, Z.mod_0_l by lia.
    by rewrite decide_False by lia.
  - rewrite seqZ_S, filter_app, length_app, Nat2Z.inj_add, IH.
    rewrite Nat2Z.inj_succ, <- Z.add_1_r, Z.add_0_l.
    destruct (succ_div_mod (Z.of_nat L) n Hn ltac:(lia))
      as [(Hr & -> & ->)|(Hr & -> & ->)];
      rewrite filter_cons, filter_nil;
      repeat case_decide; simpl; lia.
Qed.

Lemma filter_by_index {A} (P : A → Prop) `{!∀ x, Decision (P x)}
    (Q : Z → Prop) `{!∀ i, Decision (Q i)} (l : list A) (idx : Z) :
  (∀ i x, l !! i = Some x → (P x ↔ Q (idx + Z.of_nat i))) →
  length (filter P l) = length (filter Q (seqZ idx (Z.of_nat (length l)))).
Proof.
  revert idx. induction l as [|x l IH]; intros idx HPQ; [done|].
  rewrite seqZ_cons by (simpl; lia).
  replace (Z.pred (Z.of_nat (length (x :: l)))) with (Z.of_nat (length l))
    by (simpl; lia).
  rewrite !filter_cons.
  pose proof (HPQ 0%nat x eq_refl) as Hx0. rewrite Z.add_0_r in Hx0.
  assert (length (filter P l)
          = length (filter Q (seqZ (Z.succ idx) (Z.of_nat (length l))))) as IH'.
  { apply IH. intros i y Hi. rewrite (HPQ (S i) y Hi).
    by replace (idx + Z.of_nat (S i)) with (Z.succ idx + Z.of_nat i) by lia. }
  destruct (decide (P x)), (decide (Q idx)); simpl; rewrite ?IH'; tauto.
Qed.

Lemma sum_list_with_ext {A} (f g : A → nat) (l : list A) :
  (∀ x, x ∈ l → f x = g x) → sum_list_with f l = sum_list_with g l.
Proof.
  induction l as [|x l IH]; intros Hfg; simpl; [done|].
  rewrite Hfg, IH; [done| |by left]. intros y Hy. apply Hfg. by right.
Qed.

Lemma sum_list_with_zero {A} (l : list A) : sum_list_with (λ _, 0%nat) l = 0%nat.
Proof. induction l; simpl; lia. Qed.

Lemma sum_list_with_plus {A} (f g : A → nat) (l : list A) :
  sum_list_with (λ x, (f x + g x)%nat) l
  = (sum_list_with f l + sum_list_with g l)%nat.
Proof. induction l; simpl; lia. Qed.

Lemma sum_list_with_indicator (o : option Z) (p : Z) (ps : list Z) :
  NoDup ps → p ∈ ps → o = Some p →
  sum_list_with (λ q, if decide (o = Some q) then 1%nat else 0%nat) ps = 1%nat.
Proof.
  intros Hnd Hp ->. induction Hnd as [|q ps Hq Hnd IH]; [by apply elem_of_nil in Hp|].
  simpl. apply elem_of_cons in Hp as [<- | Hp].
  - rewrite decide_True by done.
    rewrite (sum_list_with_ext _ (λ _, 0%nat)) at 1.
    + by rewrite sum_list_with_zero.
    + intros r Hr. rewrite decide_False; [done|]. intros [= ->]. done.
  - rewrite decide_False, IH; [done..|]. intros [= ->]. done.
Qed.

(** Each territory is counted for exactly one player. *)
Lemma owned_partition (f : string → option Z) (n : Z) (l : list string) :
  (∀ t, t ∈ l → ∃ p, f t = Some p ∧ 0 ≤ p < n) →
  sum_list_with (λ p, length (filter (λ t, f t = Some p) l)) (seqZ 0 n)
  = length l.
Proof.
  induction l as [|t l IH]; intros Hf.
  - simpl. apply sum_list_with_zero.
  - destruct (Hf t ltac:(left)) as (p & Hp & Hrange).
    rewrite (sum_list_with_ext _
      (λ q, ((if decide (f t = Some q) then 1 else 0)
             + length (filter (λ t, f t = Some q) l))%nat)).
    + rewrite sum_list_with_plus, IH by (intros; apply Hf; by right).
      rewrite (sum_list_with_indicator _ p); [done|apply NoDup_seqZ| |done].
      apply elem_of_seqZ. lia.
    + intros q _. rewrite filter_cons. by destruct (decide (f t = Some q)).
Qed.

Section reset_facts.
Variables (n : Z) (deck : list string) (w : world).
Hypothesis Hn0 : n ≠ 0.
Hypothesis Hn : 1 ≤ n.
Hypothesis Hdeck : deck ≡ₚ _TERRITORIES.

Local Abbreviation w' := (exec (reset n deck) w).

Lemma deck_NoDup : NoDup deck.
Proof using Hdeck. rewrite Hdeck. apply _TERRITORIES_NoDup. Qed.

Lemma reset_returns : eval (reset n deck) w = Ret ().
Proof using Hn0.
  destruct (reset_run n deck w Hn0) as (owners & Hrun & _).
  unfold eval. by rewrite Hrun.
Qed.

Lemma reset_round_robin i t :
  deck !! i = Some t → _OWNER w' !! t = Some (Z.of_nat i mod n).
Proof using Hn0 Hdeck.
  destruct (reset_run n deck w Hn0) as (owners & Hrun & _ & _ & Hnd).
  unfold exec. rewrite Hrun. simpl. apply Hnd, deck_NoDup.
Qed.

Lemma reset_owner_range t :
  t ∈ _TERRITORIES → ∃ p, _OWNER w' !! t = Some p ∧ 0 ≤ p < n.
Proof using Hn0 Hn Hdeck.
  rewrite <- Hdeck. intros (i & Hi)%list_elem_of_lookup.
  exists (Z.of_nat i mod n). split; [by apply reset_round_robin|].
  apply Z.mod_pos_bound. lia.
Qed.

Lemma reset_owner_dom t : is_Some (_OWNER w' !! t) → t ∈ _TERRITORIES.
Proof using Hn0 Hdeck.
  destruct (reset_run n deck w Hn0) as (owners & Hrun & Hout & _).
  unfold exec. rewrite Hrun. simpl. rewrite <- Hdeck.
  intros Hsome. destruct (decide (t ∈ deck)) as [|Hnot]; [done|].
  rewrite (Hout t Hnot) in Hsome. by destruct Hsome.
Qed.

Lemma reset_troops t :
  _TROOPS w' !! t = if decide (t ∈ _TERRITORIES) then Some 1 else None.
Proof using Hn0.
  destruct (reset_run n deck w Hn0) as (owners & Hrun & _).
  unfold exec. rewrite Hrun. simpl.
  by rewrite one_troop_each, lookup_empty.
Qed.

Lemma reset_fields :
  _CUR w' = 0 ∧ _LAST w' = "Game reset"
  ∧ _PLAYERS w' = player_name <$> seqZ 0 n
  ∧ _NEIGHBORS w' = _NEIGHBORS w.
Proof using Hn0.
  destruct (reset_run n deck w Hn0) as (owners & Hrun & _).
  unfold exec. by rewrite Hrun.
Qed.

(** How many territories player [p] is dealt. *)
Lemma reset_owned p :
  0 ≤ p < n →
  Z.of_nat (owned w' p)
  = Z.of_nat (length _TERRITORIES) / n
    + (if decide (p < Z.of_nat (length _TERRITORIES) mod n) then 1 else 0).
Proof using Hn0 Hn Hdeck.
  intros Hp. unfold owned.
  rewrite <- (count_mod n p) by lia. f_equal.
  rewrite <- Hdeck at 1.
  rewrite <- (Permutation_length Hdeck).
  apply filter_by_index. intros i t Hi.
  rewrite (reset_round_robin i t Hi), Z.add_0_l.
  split; [by intros [= ?]|by intros ->].
Qed.

Lemma reset_balanced p q :
  0 ≤ p < n → 0 ≤ q < n → (owned w' p ≤ owned w' q + 1)%nat.
Proof using Hn0 Hn Hdeck.
  intros Hp Hq.
  pose proof (reset_owned p Hp). pose proof (reset_owned q Hq).
  repeat case_decide; lia.
Qed.

Lemma reset_partition :
  sum_list_with (owned w') (seqZ 0 n) = length _TERRITORIES.
Proof using Hn0 Hn Hdeck.
  apply (owned_partition (λ t, _OWNER w' !! t)), reset_owner_range.
Qed.

End reset_facts.

(** C3: for [n ≥ 1] and whatever order the shuffle leaves the deck in,
    [reset(n)] returns, every territory then has an owner in [[0, n)] (and
    nothing else has one), the [i]-th card of the deck goes to player
    [i mod n], every territory holds one troop, the turn pointer is 0, the
    last event is the reset notice, every territory is counted for exactly
    one player, and no player owns more than one territory more than
    another. *)
Theorem reset_deals_evenly (n : Z) (deck : list string) (w : world) :
  1 ≤ n → deck ≡ₚ _TERRITORIES →
  let w' := exec (reset n deck) w in
  eval (reset n deck) w = Ret ()
  ∧ (∀ t, t ∈ _TERRITORIES → ∃ p, _OWNER w' !! t = Some p ∧ 0 ≤ p < n)
  ∧ (∀ t, is_Some (_OWNER w' !! t) → t ∈ _TERRITORIES)
  ∧ (∀ i t, deck !! i = Some t → _OWNER w' !! t = Some (Z.of_nat i mod n))
  ∧ (∀ t, t ∈ _TERRITORIES → _TROOPS w' !! t = Some 1)
  ∧ _CUR w' = 0
  ∧ _LAST w' = "Game reset"
  ∧ sum_list_with (owned w') (seqZ 0 n) = length _TERRITORIES
  ∧ (∀ p q, 0 ≤ p < n → 0 ≤ q < n → (owned w' p ≤ owned w' q + 1)%nat).
Proof.
  intros Hn Hdeck w'. assert (n ≠ 0) as Hn0 by lia.
  split; [by apply reset_returns|].
  split; [by apply reset_owner_range|].
  split; [by apply reset_owner_dom|].
  split; [by apply reset_round_robin|].
  split. { intros t Ht. subst w'. by rewrite reset_troops, decide_True. }
  destruct (reset_fields n deck w Hn0) as (? & ? & _).
  split; [done|]. split; [done|].
  split; [by apply reset_partition|by apply reset_balanced].
Qed.

Lemma reset_deals_evenly_two_players :
  eval (reset 2 _TERRITORIES) initial = Ret ()
  ∧ (∀ t, t ∈ _TERRITORIES → ∃ p, _OWNER fresh2 !! t = Some p ∧ 0 ≤ p < 2)
  ∧ (∀ t, is_Some (_OWNER fresh2 !! t) → t ∈ _TERRITORIES)
  ∧ (∀ i t, _TERRITORIES !! i = Some t →
            _OWNER fresh2 !! t = Some (Z.of_nat i mod 2))
  ∧ (∀ t, t ∈ _TERRITORIES → _TROOPS fresh2 !! t = Some 1)
  ∧ _CUR fresh2 = 0
  ∧ _LAST fresh2 = "Game reset"
  ∧ sum_list_with (owned fresh2) (seqZ 0 2) = length _TERRITORIES
  ∧ (∀ p q, 0 ≤ p < 2 → 0 ≤ q < 2 → (owned fresh2 p ≤ owned fresh2 q + 1)%nat).
Proof.
  apply (reset_deals_evenly 2 _TERRITORIES initial).
  - lia.
  - reflexivity.
Defined.

(** ** Operations that leave the globals alone *)

Lemma all_owned_by_exec first l w : (all_owned_by first l w).2 = w.
Proof.
  induction l as [|t l IH]; [done|].
  simpl. unfold owner. unfold_M.
  destruct (_OWNER w !! t) as [p|]; [|done]. by destruct (p =? first).
Qed.

Lemma first_territory w :
  list_getitem _TERRITORIES 0 w = (Ret "Afghanistan", w).
Proof. by rewrite _TERRITORIES_value. Qed.

Lemma game_over_run w :
  game_over w =
    match _OWNER w !! "Afghanistan" with
    | Some first => all_owned_by first _TERRITORIES w
    | None => (Raise (KeyError "Afghanistan"), w)
    end.
Proof.
  unfold game_over, mbind, M_bind. rewrite first_territory.
  unfold owner, getitem. by destruct (_OWNER w !! "Afghanistan").
Qed.

Lemma game_over_exec w : exec game_over w = w.
Proof.
  unfold exec. rewrite game_over_run.
  destruct (_OWNER w !! "Afghanistan") as [first|]; [|done].
  exact (all_owned_by_exec first _TERRITORIES w).
Qed.

Lemma map_lines_exec l w : (map_lines l w).2 = w.
Proof.
  induction l as [|t l IH]; [done|].
  simpl. unfold map_line. unfold_M.
  destruct (_TROOPS w !! t); [|done]. simpl.
  destruct (_OWNER w !! t); [|done]. simpl.
  destruct (map_lines l w) as [[xs|e] w1]; simpl in *; by subst.
Qed.

Lemma get_map_exec w : exec get_map w = w.
Proof.
  unfold get_map. pose proof (map_lines_exec _TERRITORIES w) as H.
  unfold_M.
  destruct (map_lines _TERRITORIES w) as [[xs|e] w1]; simpl in *; by subst.
Qed.

Lemma getitem_exec d k w : exec (getitem d k) w = w.
Proof. unfold exec, getitem. by destruct (d w !! k). Qed.

Lemma is_enemy_exec t w : exec (is_enemy t) w = w.
Proof. unfold is_enemy. unfold_M. by destruct (_OWNER w !! t). Qed.

Lemma get_neighbors_exec t w :
  exec (get_neighbors t) w = set_NEIGHBORS (dd_get (_NEIGHBORS w) t).2 w.
Proof.
  unfold get_neighbors. unfold_M. by destruct (dd_get (_NEIGHBORS w) t).
Qed.

Lemma current_player_exec w : exec current_player w = w.
Proof. done. Qed.

Lemma next_player_run w :
  next_player w =
    if Z.of_nat (length (_PLAYERS w)) =? 0
    then (Raise ZeroDivisionError, w)
    else (Ret (), set_CUR ((_CUR w + 1) mod Z.of_nat (length (_PLAYERS w))) w).
Proof.
  unfold next_player. unfold_M. simpl.
  by destruct (Z.of_nat (length (_PLAYERS w)) =? 0).
Qed.

(** ** What every state of the process satisfies *)

Lemma attack_owner_frame att tgt w t :
  t ≠ tgt → _OWNER (exec (attack att tgt) w) !! t = _OWNER w !! t.
Proof.
  intros Ht. unfold attack.
  split_M; simpl; rewrite ?lookup_insert_ne by done; done.
Qed.

Lemma store_ok_initial : store_ok initial.
Proof.
  constructor; simpl; [done|..];
    intros t [x Hx]; by rewrite lookup_empty in Hx.
Qed.

Lemma store_ok_same w w' :
  (∀ k, adj (_NEIGHBORS w') k = adj (_NEIGHBORS w) k) →
  _OWNER w' = _OWNER w → _TROOPS w' = _TROOPS w →
  store_ok w → store_ok w'.
Proof.
  intros Hg Ho Ht Hok. constructor; intros t.
  - rewrite Hg. apply Hok.
  - rewrite Ho. apply Hok.
  - rewrite Ht. apply Hok.
Qed.

Lemma attack_store_ok att tgt w :
  store_ok w → store_ok (exec (attack att tgt) w).
Proof.
  intros Hok.
  destruct (decide (adjacent w att tgt)) as [Hadj|Hadj].
  - destruct (adjacent_territories w att tgt Hok Hadj) as [Ha Ht].
    constructor; intros t.
    + rewrite attack_NEIGHBORS. apply Hok.
    + destruct (decide (t = tgt)) as [->|Hne]; [done|].
      rewrite attack_owner_frame by done. apply Hok.
    + destruct (decide (t = tgt)) as [->|Hne]; [done|].
      destruct (decide (t = att)) as [->|Hne']; [done|].
      rewrite (proj2 (attack_frame att tgt w t Hne' Hne)). apply Hok.
  - pose proof (rejected_refused _ _ _ _ (attack_invalid_adjacency _ _ _ Hadj))
      as (_ & _ & Ho & Ht & _).
    apply (store_ok_same w); [|done..]. apply attack_NEIGHBORS.
Qed.

Lemma step_store_ok w c : store_ok w → store_ok (step w c).
Proof.
  intros Hok. destruct c; cbn [step];
    rewrite ?getitem_exec, ?is_enemy_exec, ?game_over_exec, ?get_map_exec;
    try assumption.
  - by apply attack_store_ok.
  - unfold exec. rewrite next_player_run.
    destruct (_ =? 0); [assumption|]. by apply (store_ok_same w).
  - rewrite get_neighbors_exec. apply (store_ok_same w); [|done..].
    intros k. apply adj_dd_get.
  - unfold troops. by rewrite getitem_exec.
  - unfold owner. by rewrite getitem_exec.
Qed.

Lemma deal_zero idx deck d w :
  deal 0 idx deck d w =
    match deck with
    | [] => (Ret d, w)
    | _ :: _ => (Raise ZeroDivisionError, w)
    end.
Proof. by destruct deck. Qed.

Lemma reset_store_ok n deck w :
  deck ≡ₚ _TERRITORIES → store_ok w → store_ok (exec (reset n deck) w).
Proof.
  intros Hdeck Hok. destruct (decide (n = 0)) as [->|Hn].
  - unfold reset, exec. unfold_M. simpl. rewrite deal_zero.
    destruct deck; simpl.
    + apply Permutation_nil_l in Hdeck. rewrite _TERRITORIES_value in Hdeck.
      discriminate.
    + by apply (store_ok_same w).
  - destruct (reset_fields n deck w Hn) as (_ & _ & _ & Hnb).
    constructor; intros t.
    + rewrite Hnb. apply Hok.
    + by apply reset_owner_dom.
    + rewrite reset_troops by done. case_decide; [done|by intros []].
Qed.

Lemma session_store_ok w : session w → store_ok w.
Proof.
  induction 1; auto using store_ok_initial, reset_store_ok, step_store_ok.
Qed.

(** ** The invariant of a game in progress *)

Lemma reset_inv n deck w :
  1 ≤ n → deck ≡ₚ _TERRITORIES → store_ok w → inv n (exec (reset n deck) w).
Proof.
  intros Hn Hdeck Hok. assert (n ≠ 0) as Hn0 by lia.
  destruct (reset_fields n deck w Hn0) as (Hcur & _ & Hpl & _).
  constructor.
  - done.
  - rewrite Hcur. lia.
  - by apply reset_owner_range.
  - intros t Ht. exists 1. by rewrite reset_troops, decide_True.
  - by apply reset_store_ok.
Qed.

(** In a game in progress an attack never raises: it is rejected by one of
    the three checks, or it goes through. *)
Lemma attack_cases n w att tgt :
  inv n w →
  (∃ msg, rejected msg att tgt w)
  ∨ (∃ q a b,
       adjacent w att tgt
       ∧ _OWNER w !! att = Some (_CUR w)
       ∧ _OWNER w !! tgt = Some q ∧ q ≠ _CUR w
       ∧ _TROOPS w !! att = Some a ∧ _TROOPS w !! tgt = Some b
       ∧ 1 ≤ b ∧ a > b + 1).
Proof.
  intros Hinv.
  destruct (decide (adjacent w att tgt)) as [Hadj|Hadj];
    [|left; eexists; by apply attack_invalid_adjacency].
  destruct (adjacent_territories w att tgt (inv_store _ _ Hinv) Hadj) as [Ha Ht].
  destruct (inv_owner _ _ Hinv att Ha) as (oa & Hoa & _).
  destruct (inv_owner _ _ Hinv tgt Ht) as (ot & Hot & _).
  destruct (decide (oa = _CUR w)) as [->|Hne];
    [|left; eexists; eapply attack_invalid_ownership; eauto].
  destruct (decide (ot = _CUR w)) as [->|Hne];
    [left; eexists; eapply attack_invalid_ownership; eauto|].
  destruct (inv_troops _ _ Hinv att Ha) as (a & Hta & _).
  destruct (inv_troops _ _ Hinv tgt Ht) as (b & Htb & Hb).
  destruct (decide (a ≤ b + 1)) as [Hle|Hgt];
    [left; eexists; eapply attack_not_enough_troops; eauto|].
  right. exists ot, a, b. repeat split; try done; lia.
Qed.

Lemma inv_same n w w' :
  _PLAYERS w' = _PLAYERS w → _CUR w' = _CUR w →
  _OWNER w' = _OWNER w → _TROOPS w' = _TROOPS w →
  (∀ k, adj (_NEIGHBORS w') k = adj (_NEIGHBORS w) k) →
  inv n w → inv n w'.
Proof.
  intros Hp Hc Ho Ht Hg Hinv. constructor.
  - rewrite Hp. apply Hinv.
  - rewrite Hc. apply Hinv.
  - rewrite Ho. apply Hinv.
  - rewrite Ht. apply Hinv.
  - apply (store_ok_same w); [done..|]. apply Hinv.
Qed.

Lemma attack_inv n w att tgt : inv n w → inv n (exec (attack att tgt) w).
Proof.
  intros Hinv.
  destruct (attack_cases n w att tgt Hinv)
    as [[msg Hrej]|(q & a & b & Hadj & Hoa & Hot & Hq & Ha & Hb & Hb1 & Hab)].
  - apply rejected_refused in Hrej as (_ & _ & Ho & Ht & Hc & Hp).
    apply (inv_same n w); [done..|apply attack_NEIGHBORS|done].
  - pose proof (attack_success_run w att tgt n q a b Hadj Hoa Hot Hq Ha Hb Hab
                  (inv_players _ _ Hinv) (inv_cur _ _ Hinv)) as Hrun.
    destruct (adjacent_territories w att tgt (inv_store _ _ Hinv) Hadj) as [Hat Htt].
    constructor.
    + rewrite attack_PLAYERS. apply Hinv.
    + rewrite attack_CUR. apply Hinv.
    + intros t Ht. unfold exec. rewrite Hrun. simpl.
      destruct (decide (t = tgt)) as [->|Hne].
      * rewrite lookup_insert_eq. eexists. split; [done|]. apply Hinv.
      * rewrite lookup_insert_ne by done. by apply Hinv.
    + intros t Ht. unfold exec. rewrite Hrun. simpl.
      destruct (decide (t = tgt)) as [->|Hne].
      * rewrite lookup_insert_eq. eexists. split; [done|]. lia.
      * rewrite lookup_insert_ne by done.
        destruct (decide (t = att)) as [->|Hne'].
        -- rewrite lookup_insert_eq. eexists. split; [done|].
           assert (a / 2 ≤ a - 1) by (apply Z.div_le_upper_bound; lia).
           lia.
        -- rewrite lookup_insert_ne by done. by apply Hinv.
    + apply attack_store_ok, Hinv.
Qed.

Lemma next_player_inv n w : inv n w → inv n (exec next_player w).
Proof.
  intros Hinv. unfold exec. rewrite next_player_run.
  rewrite (inv_players _ _ Hinv).
  pose proof (inv_cur _ _ Hinv) as Hcur.
  rewrite players_length by lia.
  destruct (Z.eqb_spec n 0) as [|_]; [lia|]. simpl.
  constructor; simpl; try apply Hinv.
  - apply Z.mod_pos_bound. lia.
  - apply (store_ok_same w); [done..|]. apply Hinv.
Qed.

Lemma step_inv n w c : inv n w → inv n (step w c).
Proof.
  intros Hinv. destruct c; cbn [step];
    rewrite ?getitem_exec, ?is_enemy_exec, ?game_over_exec, ?get_map_exec;
    try assumption.
  - by apply attack_inv.
  - by apply next_player_inv.
  - rewrite get_neighbors_exec. apply (inv_same n w); [done..| |done].
    intros k. apply adj_dd_get.
  - unfold troops. by rewrite getitem_exec.
  - unfold owner. by rewrite getitem_exec.
Qed.

Lemma run_inv n cs w : inv n w → inv n (run cs w).
Proof.
  revert w. induction cs as [|c cs IH]; intros w Hinv; [done|].
  apply IH, step_inv, Hinv.
Qed.

Lemma run_session cs w : session w → session (run cs w).
Proof.
  revert w. induction cs as [|c cs IH]; intros w Hs; [done|].
  apply IH. by constructor.
Qed.

(** C4: for [n ≥ 1], after [reset(n)] and any finite sequence of calls to
    [attack], [next_player] and the queries, every territory has an owner
    in [[0, n)] and at least one troop. *)
Theorem owner_and_troops_invariant (n : Z) (deck : list string) (w0 : world)
    (cs : list call) :
  session w0 → 1 ≤ n → deck ≡ₚ _TERRITORIES →
  let w := run cs (exec (reset n deck) w0) in
  ∀ t, t ∈ _TERRITORIES →
    ∃ p k, _OWNER w !! t = Some p ∧ 0 ≤ p < n ∧ _TROOPS w !! t = Some k ∧ 1 ≤ k.
Proof.
  intros Hs Hn Hdeck w t Ht.
  assert (inv n w) as Hinv
    by (apply run_inv, reset_inv; auto using session_store_ok).
  destruct (inv_owner _ _ Hinv t Ht) as (p & Hp & Hrange).
  destruct (inv_troops _ _ Hinv t Ht) as (k & Hk & Hk1).
  by exists p, k.
Qed.

Lemma owner_and_troops_invariant_example :
  session initial
  ∧ ∀ t, t ∈ _TERRITORIES →
      ∃ p k,
        _OWNER (run [Attack "Alberta" "Alaska"; NextPlayer;
                     GetNeighbors "Atlantis"; Attack "Alaska" "Alberta";
                     GameOver] fresh2) !! t = Some p
        ∧ 0 ≤ p < 2
        ∧ _TROOPS (run [Attack "Alberta" "Alaska"; NextPlayer;
                        GetNeighbors "Atlantis"; Attack "Alaska" "Alberta";
                        GameOver] fresh2) !! t = Some k
        ∧ 1 ≤ k.
Proof.
  split; [exact session_import|].
  apply (owner_and_troops_invariant 2 _TERRITORIES initial).
  - exact session_import.
  - lia.
  - reflexivity.
Defined.

(** Nothing in the module adds troops, so in a game that [reset] started
    every territory keeps its one troop and every attack is rejected; the
    successful path is only reached from a state set up by hand. *)
Lemma one_troop_rejected n w att tgt :
  inv n w → (∀ t, t ∈ _TERRITORIES → _TROOPS w !! t = Some 1) →
  ∃ msg, rejected msg att tgt w.
Proof.
  intros Hinv Hone.
  destruct (attack_cases n w att tgt Hinv)
    as [?|(q & a & b & Hadj & _ & _ & _ & Ha & Hb & _ & Hab)]; [done|].
  destruct (adjacent_territories w att tgt (inv_store _ _ Hinv) Hadj) as [Hat Htt].
  rewrite (Hone _ Hat) in Ha. rewrite (Hone _ Htt) in Hb.
  simplify_eq. lia.
Qed.

Lemma one_troop_step n w c :
  inv n w → (∀ t, t ∈ _TERRITORIES → _TROOPS w !! t = Some 1) →
  ∀ t, t ∈ _TERRITORIES → _TROOPS (step w c) !! t = Some 1.
Proof.
  intros Hinv Hone. destruct c; cbn [step];
    rewrite ?getitem_exec, ?is_enemy_exec, ?game_over_exec, ?get_map_exec,
      ?get_neighbors_exec;
    try assumption.
  - destruct (one_troop_rejected n w att tgt Hinv Hone) as [msg Hrej].
    apply rejected_refused in Hrej as (_ & _ & _ & -> & _). exact Hone.
  - unfold exec. rewrite next_player_run. by destruct (_ =? 0).
  - unfold troops. by rewrite getitem_exec.
  - unfold owner. by rewrite getitem_exec.
Qed.

Lemma attack_after_reset_is_rejected n deck w0 cs att tgt :
  session w0 → 1 ≤ n → deck ≡ₚ _TERRITORIES →
  ∃ msg, refused msg att tgt (run cs (exec (reset n deck) w0)).
Proof.
  intros Hs Hn Hdeck.
  assert (inv n (exec (reset n deck) w0)) as Hinv
    by (apply reset_inv; auto using session_store_ok).
  assert (∀ t, t ∈ _TERRITORIES →
               _TROOPS (exec (reset n deck) w0) !! t = Some 1) as Hone.
  { intros t Ht. rewrite reset_troops by lia. by rewrite decide_True. }
  revert Hinv Hone. generalize (exec (reset n deck) w0) as w.
  induction cs as [|c cs IH]; intros w Hinv Hone.
  - destruct (one_troop_rejected n w att tgt Hinv Hone) as [msg Hrej].
    exists msg. by apply rejected_refused.
  - apply IH; [by apply step_inv|by eapply one_troop_step].
Qed.

(** ** Turn order *)

Lemma next_player_CUR n w :
  inv n w →
  eval next_player w = Ret ()
  ∧ _CUR (exec next_player w) = (_CUR w + 1) mod n.
Proof.
  intros Hinv. unfold eval, exec. rewrite next_player_run.
  rewrite (inv_players _ _ Hinv).
  pose proof (inv_cur _ _ Hinv) as Hcur.
  rewrite players_length by lia.
  by destruct (Z.eqb_spec n 0) as [|_]; [lia|].
Qed.

Lemma next_player_repeated n w (k : nat) :
  inv n w →
  _CUR (run (replicate k NextPlayer) w) = (_CUR w + Z.of_nat k) mod n.
Proof.
  revert w. induction k as [|k IH]; intros w Hinv.
  - simpl. rewrite Z.add_0_r, Z.mod_small; [done|]. apply Hinv.
  - change (run (replicate (S k) NextPlayer) w)
      with (run (replicate k NextPlayer) (exec next_player w)).
    rewrite IH by (by apply next_player_inv).
    rewrite (proj2 (next_player_CUR n w Hinv)).
    rewrite Zplus_mod_idemp_l. f_equal. lia.
Qed.

(** C7: for [n ≥ 1], in a game started by [reset(n)], [next_player()] sets
    the turn pointer to [(current + 1) mod n], so from player [n - 1] it
    wraps to player 0, and [n] calls in a row bring it back to where it
    was. *)
Theorem next_player_cycles (n : Z) (deck : list string) (w0 : world)
    (cs : list call) :
  session w0 → 1 ≤ n → deck ≡ₚ _TERRITORIES →
  let w := run cs (exec (reset n deck) w0) in
  eval next_player w = Ret ()
  ∧ _CUR (exec next_player w) = (_CUR w + 1) mod n
  ∧ (_CUR w = n - 1 → _CUR (exec next_player w) = 0)
  ∧ _CUR (run (replicate (Z.to_nat n) NextPlayer) w) = _CUR w.
Proof.
  intros Hs Hn Hdeck w.
  assert (inv n w) as Hinv
    by (apply run_inv, reset_inv; auto using session_store_ok).
  destruct (next_player_CUR n w Hinv) as [Hret Hcur].
  split; [done|]. split; [done|]. split.
  - intros Hlast. rewrite Hcur, Hlast.
    replace (n - 1 + 1) with (1 * n) by lia. apply Z.mod_mul. lia.
  - rewrite (next_player_repeated n) by done.
    rewrite Z2Nat.id by lia.
    replace (_CUR w + n) with (_CUR w + 1 * n) by lia.
    rewrite Z.mod_add by lia. apply Z.mod_small, Hinv.
Qed.

Lemma next_player_cycles_three_players :
  eval next_player (run [NextPlayer; NextPlayer]
                      (exec (reset 3 _TERRITORIES) initial)) = Ret ()
  ∧ _CUR (exec next_player (run [NextPlayer; NextPlayer]
                              (exec (reset 3 _TERRITORIES) initial)))
    = (_CUR (run [NextPlayer; NextPlayer]
               (exec (reset 3 _TERRITORIES) initial)) + 1) mod 3
  ∧ (_CUR (run [NextPlayer; NextPlayer]
             (exec (reset 3 _TERRITORIES) initial)) = 3 - 1 →
     _CUR (exec next_player (run [NextPlayer; NextPlayer]
                               (exec (reset 3 _TERRITORIES) initial))) = 0)
  ∧ _CUR (run (replicate (Z.to_nat 3) NextPlayer)
            (run [NextPlayer; NextPlayer]
               (exec (reset 3 _TERRITORIES) initial)))
    = _CUR (run [NextPlayer; NextPlayer] (exec (reset 3 _TERRITORIES) initial)).
Proof.
  apply (next_player_cycles 3 _TERRITORIES initial [NextPlayer; NextPlayer]).
  - exact session_import.
  - lia.
  - reflexivity.
Defined.

(** ** Names that are not on the board *)

Lemma unknown_not_adjacent w att tgt :
  store_ok w → att ∉ _TERRITORIES → ¬ adjacent w att tgt.
Proof.
  intros Hok Hatt Hadj.
  by destruct (adjacent_territories w att tgt Hok Hadj).
Qed.

Lemma getitem_unknown (d : world → gmap string Z) k w :
  d w !! k = None → eval (getitem d k) w = Raise (KeyError k).
Proof. unfold eval, getitem. by intros ->. Qed.

(** C10: for a name [att] that is not a territory of the built graph and
    any [tgt], [attack(att, tgt)] raises nothing: it returns [False],
    records "Invalid adjacency" and changes no owner and no troop count;
    [owner], [troops] and [is_enemy] on such a name raise [KeyError]. *)
Theorem unknown_territory (w : world) (att tgt : string) :
  session w → att ∉ _TERRITORIES →
  let w' := exec (attack att tgt) w in
  eval (attack att tgt) w = Ret false
  ∧ _LAST w' = "Invalid adjacency"
  ∧ adj (_NEIGHBORS w) att = []
  ∧ _OWNER w' = _OWNER w
  ∧ _TROOPS w' = _TROOPS w
  ∧ eval (owner att) w = Raise (KeyError att)
  ∧ eval (troops att) w = Raise (KeyError att)
  ∧ eval (is_enemy att) w = Raise (KeyError att).
Proof.
  intros Hok%session_store_ok Hatt w'.
  pose proof (unknown_not_adjacent w att tgt Hok Hatt) as Hadj.
  apply attack_invalid_adjacency, rejected_refused in Hadj
    as (Hret & Hlast & Ho & Ht & _).
  assert (_OWNER w !! att = None) as Hoa.
  { apply eq_None_not_Some. intros Hsome.
    by apply Hatt, (store_owner_dom _ Hok). }
  assert (_TROOPS w !! att = None) as Hta.
  { apply eq_None_not_Some. intros Hsome.
    by apply Hatt, (store_troops_dom _ Hok). }
  repeat split; try done.
  - rewrite (store_graph _ Hok), adj_lookup.
    destruct (_build_graph !! att) as [l|] eqn:Hl; [|done].
    destruct Hatt. apply _TERRITORIES_keys. by eexists.
  - by apply getitem_unknown.
  - by apply getitem_unknown.
  - unfold is_enemy. unfold_M. by rewrite Hoa.
Qed.

Lemma unknown_territory_atlantis :
  eval (attack "Atlantis" "Alaska") fresh2 = Ret false
  ∧ _LAST (exec (attack "Atlantis" "Alaska") fresh2) = "Invalid adjacency"
  ∧ adj (_NEIGHBORS fresh2) "Atlantis" = []
  ∧ _OWNER (exec (attack "Atlantis" "Alaska") fresh2) = _OWNER fresh2
  ∧ _TROOPS (exec (attack "Atlantis" "Alaska") fresh2) = _TROOPS fresh2
  ∧ eval (owner "Atlantis") fresh2 = Raise (KeyError "Atlantis")
  ∧ eval (troops "Atlantis") fresh2 = Raise (KeyError "Atlantis")
  ∧ eval (is_enemy "Atlantis") fresh2 = Raise (KeyError "Atlantis").
Proof.
  apply (unknown_territory fresh2 "Atlantis" "Alaska").
  - apply session_reset; [reflexivity | exact session_import].
  - apply (bool_decide_unpack _). vm_compute. exact I.
Defined.

(** ** End of the game *)

Lemma all_owned_by_spec first l w :
  (∀ t, t ∈ l → is_Some (_OWNER w !! t)) →
  ∃ b, (all_owned_by first l w).1 = Ret b
       ∧ (b = true ↔ ∀ t, t ∈ l → _OWNER w !! t = Some first).
Proof.
  induction l as [|t l IH]; intros Hl.
  - exists true. split; [done|]. split; [|done]. by intros _ t ?%elem_of_nil.
  - destruct (Hl t ltac:(left)) as [p Hp].
    destruct IH as (b & Hb & Hiff); [intros; apply Hl; by right|].
    simpl. unfold owner. unfold_M. rewrite Hp. simpl.
    destruct (Z.eqb_spec p first) as [-> | Hne].
    + exists b. split; [done|]. rewrite Hiff. split.
      * intros H t' [-> | ?]%elem_of_cons; auto.
      * intros H t' Ht'. apply H. by right.
    + exists false. split; [done|]. split; [done|].
      intros H. specialize (H t ltac:(left)). congruence.
Qed.

(** C5: [game_over()] returns [True] exactly when every territory has the
    owner of the first territory of the sorted list, that is, exactly when
    one player owns them all; it reads the state and changes nothing. *)
Theorem game_over_single_owner (w : world) :
  (∀ t, t ∈ _TERRITORIES → is_Some (_OWNER w !! t)) →
  ∃ t0 b,
    head _TERRITORIES = Some t0
    ∧ eval game_over w = Ret b
    ∧ exec game_over w = w
    ∧ (b = true ↔ ∀ t, t ∈ _TERRITORIES → _OWNER w !! t = _OWNER w !! t0)
    ∧ (b = true ↔ ∃ p, ∀ t, t ∈ _TERRITORIES → _OWNER w !! t = Some p).
Proof.
  intros Hown. exists "Afghanistan".
  assert ("Afghanistan" ∈ _TERRITORIES) as Hfirst
    by (rewrite _TERRITORIES_value; left).
  destruct (Hown _ Hfirst) as [first Hp].
  destruct (all_owned_by_spec first _TERRITORIES w Hown) as (b & Hb & Hiff).
  exists b. split; [by rewrite _TERRITORIES_value|].
  split; [unfold eval; by rewrite game_over_run, Hp|].
  split; [apply game_over_exec|].
  rewrite Hp. split; [done|]. rewrite Hiff. split; [by exists first|].
  intros [p Hall].
  assert (p = first) as -> by (specialize (Hall _ Hfirst); congruence).
  done.
Qed.

Lemma game_over_single_owner_fresh2 :
  ∃ t0 b,
    head _TERRITORIES = Some t0
    ∧ eval game_over fresh2 = Ret b
    ∧ exec game_over fresh2 = fresh2
    ∧ (b = true ↔ ∀ t, t ∈ _TERRITORIES →
                       _OWNER fresh2 !! t = _OWNER fresh2 !! t0)
    ∧ (b = true ↔ ∃ p, ∀ t, t ∈ _TERRITORIES → _OWNER fresh2 !! t = Some p).
Proof.
  apply (game_over_single_owner fresh2).
  intros t Ht.
  destruct (reset_owner_range 2 _TERRITORIES initial ltac:(lia) ltac:(lia)
              ltac:(reflexivity) t Ht) as (p & Hp & _).
  by exists p.
Defined.

Example game_over_after_deal : eval game_over fresh2 = Ret false.
Proof. by vm_compute. Qed.

Example game_over_one_left :
  eval game_over
    (set_OWNER (<["Yakutsk" := 1]> (foldl (λ d t, <[t := 0]> d) ∅ _TERRITORIES))
       fresh2) = Ret false.
Proof. by vm_compute. Qed.

Example game_over_conquered :
  eval game_over
    (set_OWNER (foldl (λ d t, <[t := 1]> d) ∅ _TERRITORIES) fresh2) = Ret true.
Proof. by vm_compute. Qed.

(** ** Building the graph *)

Section build.
Implicit Types (m : gmap string (list string)) (a b k x : string).

Lemma adj_add_neighbor a b m k :
  adj (add_neighbor a b m) k =
    if decide (k = a)
    then (if decide (b ∈ adj m a) then adj m a else adj m a ++ [b])%list
    else adj m k.
Proof.
  unfold add_neighbor. rewrite !adj_lookup. unfold dd_get.
  destruct (m !! a) as [l|] eqn:Ha; simpl.
  - destruct (decide (b ∈ l)) as [Hb|Hb].
    + rewrite bool_decide_eq_true_2 by done.
      destruct (decide (k = a)) as [->|]; [by rewrite Ha|done].
    + rewrite bool_decide_eq_false_2 by done.
      destruct (decide (k = a)) as [->|].
      * by rewrite lookup_insert_eq.
      * by rewrite lookup_insert_ne.
  - destruct (decide (b ∈ [])) as [[]%elem_of_nil|_].
    rewrite ?bool_decide_eq_false_2 by apply not_elem_of_nil.
    destruct (decide (k = a)) as [->|].
    + by rewrite lookup_insert_eq.
    + by rewrite !lookup_insert_ne.
Qed.

Lemma elem_of_adj_add_neighbor a b m k x :
  x ∈ adj (add_neighbor a b m) k ↔ x ∈ adj m k ∨ (k = a ∧ x = b).
Proof.
  rewrite adj_add_neighbor.
  destruct (decide (k = a)) as [->|Hk]; [|tauto].
  destruct (decide (b ∈ adj m a)) as [Hb|Hb].
  - intuition (subst; auto).
  - rewrite elem_of_app, list_elem_of_singleton. tauto.
Qed.

Lemma NoDup_adj_add_neighbor a b m k :
  NoDup (adj m k) → NoDup (adj (add_neighbor a b m) k).
Proof.
  intros Hnd. rewrite adj_add_neighbor.
  destruct (decide (k = a)) as [->|Hk]; [|done].
  destruct (decide (b ∈ adj m a)) as [Hb|Hb]; [done|].
  apply NoDup_app. split; [done|]. split; [|apply NoDup_singleton].
  by intros x Hx ->%list_elem_of_singleton.
Qed.

Lemma elem_of_adj_add_edge m a b k x :
  x ∈ adj (add_edge m (a, b)) k
  ↔ x ∈ adj m k ∨ (k = a ∧ x = b) ∨ (k = b ∧ x = a).
Proof.
  unfold add_edge. simpl. rewrite !elem_of_adj_add_neighbor. tauto.
Qed.

Lemma NoDup_adj_add_edge m e k :
  NoDup (adj m k) → NoDup (adj (add_edge m e) k).
Proof. intros. by do 2 apply NoDup_adj_add_neighbor. Qed.

(** After any list of edges the adjacency lists hold exactly the listed
    pairs, read in both directions. *)
Lemma elem_of_adj_foldl es m k x :
  x ∈ adj (foldl add_edge m es) k
  ↔ x ∈ adj m k ∨ (k, x) ∈ es ∨ (x, k) ∈ es.
Proof.
  revert m. induction es as [|[a b] es IH]; intros m; simpl.
  - rewrite !elem_of_nil. tauto.
  - rewrite IH, elem_of_adj_add_edge, !elem_of_cons, !pair_equal_spec. tauto.
Qed.

Lemma NoDup_adj_foldl es m k :
  NoDup (adj m k) → NoDup (adj (foldl add_edge m es) k).
Proof.
  revert m. induction es as [|e es IH]; intros m Hnd; [done|].
  simpl. by apply IH, NoDup_adj_add_edge.
Qed.

Lemma foldl_chains (f : string → list (string * string)) lines m :
  foldl (λ m line, foldl add_edge m (f line)) m lines
  = foldl add_edge m (lines ≫= f).
Proof.
  revert m. induction lines as [|line lines IH]; intros m; [done|].
  simpl. by rewrite IH, foldl_app.
Qed.

End build.

Lemma _build_graph_edges : _build_graph = foldl add_edge ∅ edges.
Proof. rewrite _build_graph_unfold. apply foldl_chains. Qed.

Lemma elem_of_adj_build_graph k x :
  x ∈ adj _build_graph k ↔ (k, x) ∈ edges ∨ (x, k) ∈ edges.
Proof.
  rewrite _build_graph_edges, elem_of_adj_foldl, adj_lookup, lookup_empty.
  simpl. rewrite elem_of_nil. tauto.
Qed.

Lemma edges_no_loop a : (a, a) ∉ edges.
Proof.
  assert (Forall (λ e : string * string, e.1 ≠ e.2) edges) as H.
  { apply (bool_decide_unpack _). by vm_compute. }
  rewrite Forall_forall in H. intros Ha. by apply (H _ Ha).
Qed.

Lemma edges_repeat : ¬ NoDup edges.
Proof. apply (bool_decide_unpack _). by vm_compute. Qed.

(** C6: in the built graph, if [b] is in [a]'s adjacency list then [a] is
    in [b]'s; no territory is in its own list; and no list holds a name
    twice, although the chains of [CONNECT] list a pair more than once. *)
Theorem board_graph_is_simple :
  (∀ a b, b ∈ adj _build_graph a → a ∈ adj _build_graph b)
  ∧ (∀ a, a ∉ adj _build_graph a)
  ∧ (∀ a, NoDup (adj _build_graph a))
  ∧ ¬ NoDup edges.
Proof.
  split; [|split; [|split]].
  - intros a b. rewrite !elem_of_adj_build_graph. tauto.
  - intros a. rewrite elem_of_adj_build_graph.
    intros [H|H]; by apply edges_no_loop in H.
  - intros a. rewrite _build_graph_edges. apply NoDup_adj_foldl.
    rewrite adj_lookup, lookup_empty. apply NoDup_nil_2.
  - apply edges_repeat.
Qed.

Example edge_listed_twice :
  length (filter (λ e, e = ("Afghanistan", "Ural")) edges) = 2%nat
  ∧ adj _build_graph "Afghanistan" = ["China"; "Ural"; "Middle East"; "India"; "Ukraine"].
Proof. split; by vm_compute. Qed.

(** ** Strings *)

(** [simpl] is to compute [++] on strings in what follows. *)
#[local] Arguments String.append : simpl nomatch.

Section strings.
Implicit Types (a b c s : string) (f g : ascii → bool).

Lemma append_assoc a b c : ((a ++ b) ++ c = a ++ (b ++ c))%string.
Proof. induction a as [|x a IH]; simpl; [done|by rewrite IH]. Qed.

Lemma length_append a b :
  String.length (a ++ b) = (String.length a + String.length b)%nat.
Proof. induction a as [|x a IH]; simpl; [done|by rewrite IH]. Qed.

Lemma length_spaces n : String.length (PyStr.spaces n) = n.
Proof. induction n as [|n IH]; simpl; [done|by rewrite IH]. Qed.

Lemma all_chars_app f a b :
  all_chars f (a ++ b) = all_chars f a && all_chars f b.
Proof.
  induction a as [|x a IH]; simpl; [done|].
  by rewrite IH, andb_assoc.
Qed.

Lemma all_chars_impl f g s :
  (∀ x, f x = true → g x = true) → all_chars f s = true → all_chars g s = true.
Proof.
  intros Hfg. induction s as [|x s IH]; simpl; [done|].
  intros [Hx Hs]%andb_true_iff. rewrite (Hfg x Hx). by apply IH.
Qed.

Lemma all_chars_spaces f n : f " "%char = true → all_chars f (PyStr.spaces n) = true.
Proof. intros Hf. induction n; simpl; [done|]. by rewrite Hf. Qed.

Lemma take_append a b : MapLine.take (String.length a) (a ++ b) = a.
Proof. induction a as [|x a IH]; simpl; [by destruct b|by rewrite IH]. Qed.

Lemma drop_append a b : MapLine.drop (String.length a) (a ++ b) = b.
Proof. induction a as [|x a IH]; simpl; [by destruct b|done]. Qed.

Lemma rstrip_spaces n : PyStr.rstrip (PyStr.spaces n) = "".
Proof. induction n as [|n IH]; simpl; [done|]. by rewrite IH. Qed.

Lemma rstrip_append_spaces s n :
  PyStr.rstrip (s ++ PyStr.spaces n) = PyStr.rstrip s.
Proof.
  induction s as [|x s IH]; simpl; [apply rstrip_spaces|]. by rewrite IH.
Qed.

Lemma lstrip_spaces s n : PyStr.lstrip (PyStr.spaces n ++ s) = PyStr.lstrip s.
Proof. induction n as [|n IH]; simpl; done. Qed.

End strings.

(** Digits and the minus sign are neither blank nor line ends. *)
Lemma numeral_char_facts x :
  numeral_char x = true →
  PyStr.is_space x = false ∧ inline_char x = true ∧ Ascii.eqb x " " = false.
Proof.
  destruct x as [[|] [|] [|] [|] [|] [|] [|] [|]]; vm_compute;
    intros; (done || discriminate).
Qed.

Lemma numeral_uint d : all_chars numeral_char (NilEmpty.string_of_uint d) = true.
Proof. induction d; simpl; done. Qed.

Lemma numeral_str k : all_chars numeral_char (PyStr.str k) = true.
Proof.
  unfold PyStr.str, NilZero.string_of_int, NilZero.string_of_uint.
  destruct (Z.to_int k) as [d|d]; destruct d; simpl; try done;
    apply numeral_uint.
Qed.

Lemma str_nonempty k : PyStr.str k ≠ "".
Proof.
  unfold PyStr.str, NilZero.string_of_int, NilZero.string_of_uint.
  destruct (Z.to_int k) as [d|d]; destruct d; simpl; done.
Qed.

(** [int(str(k)) == k] *)
Lemma int_str k : PyStr.int (PyStr.str k) = Some k.
Proof.
  unfold PyStr.int, PyStr.str. rewrite NilZero.isi.
  - simpl. by rewrite DecimalZ.of_to.
  - destruct k; simpl; [done| |done].
    intros [= H]. by apply DecimalPos.Unsigned.to_uint_nonnil in H.
  - destruct k; simpl; [done..|].
    intros [= H]. by apply DecimalPos.Unsigned.to_uint_nonnil in H.
Qed.

Lemma lstrip_numeral s rest :
  all_chars numeral_char s = true → s ≠ "" →
  PyStr.lstrip (s ++ rest) = (s ++ rest)%string.
Proof.
  destruct s as [|x s]; [done|]. simpl.
  intros [Hx _]%andb_true_iff _.
  by destruct (numeral_char_facts x Hx) as (-> & _).
Qed.

Lemma field_numeral s rest :
  all_chars numeral_char s = true →
  MapLine.field (s ++ String " " rest) = (s, String " " rest).
Proof.
  induction s as [|x s IH]; simpl; [done|].
  intros [Hx Hs]%andb_true_iff.
  destruct (numeral_char_facts x Hx) as (_ & _ & ->). by rewrite IH.
Qed.

(** ** The map dump *)

Lemma splitlines_inline s :
  all_chars inline_char s = true → s ≠ "" → PyStr.splitlines s = [s].
Proof.
  induction s as [|x s IH]; [done|]. simpl.
  intros [Hx Hs]%andb_true_iff _.
  unfold inline_char in Hx. apply andb_true_iff in Hx as [Hlb Hcr].
  apply negb_true_iff in Hlb, Hcr. rewrite Hlb, Hcr.
  destruct s as [|y s]; [done|]. by rewrite IH.
Qed.

Lemma splitlines_line s rest :
  all_chars inline_char s = true →
  PyStr.splitlines (s ++ String PyStr.LF rest) = s :: PyStr.splitlines rest.
Proof.
  induction s as [|x s IH]; [done|]. simpl.
  intros [Hx Hs]%andb_true_iff.
  unfold inline_char in Hx. apply andb_true_iff in Hx as [Hlb Hcr].
  apply negb_true_iff in Hlb, Hcr. rewrite Hlb, Hcr.
  by rewrite IH.
Qed.

(** ["\n".join(ls).splitlines() == ls] for lines that are not empty and
    hold no line end. *)
Lemma splitlines_join (ls : list string) :
  Forall (λ s, all_chars inline_char s = true ∧ s ≠ "") ls →
  PyStr.splitlines (PyStr.join NL ls) = ls.
Proof.
  induction 1 as [|s ls [Hs Hne] Hls IH]; [done|].
  destruct ls as [|s' ls].
  - by apply splitlines_inline.
  - change (PyStr.join NL (s :: s' :: ls))
      with (s ++ String PyStr.LF (PyStr.join NL (s' :: ls)))%string.
    by rewrite splitlines_line, IH.
Qed.

Lemma line_text_inline t k p :
  all_chars inline_char t = true →
  all_chars inline_char (line_text t k p) = true ∧ line_text t k p ≠ "".
Proof.
  intros Ht.
  assert (∀ z, all_chars inline_char (PyStr.str z) = true) as Hz.
  { intros z. eapply all_chars_impl, numeral_str.
    intros x Hx. by destruct (numeral_char_facts x Hx) as (_ & -> & _). }
  split.
  - unfold line_text, PyStr.ljust, PyStr.rjust.
    rewrite !all_chars_app, Ht, !Hz, !all_chars_spaces by done. done.
  - unfold line_text, PyStr.ljust. intros Hnil.
    apply (f_equal String.length) in Hnil.
    rewrite !length_append in Hnil. simpl in Hnil. lia.
Qed.

(** Reading a line of the dump gives back what was written. *)
Lemma parse_line_text t k p :
  (String.length t ≤ 24)%nat → PyStr.rstrip t = t →
  MapLine.parse (line_text t k p) = Some (t, k, p).
Proof.
  intros Hlen Hstrip. unfold MapLine.parse, line_text.
  assert (String.length (PyStr.ljust 24 t) = 24%nat) as Hcol.
  { unfold PyStr.ljust. rewrite length_append, length_spaces. lia. }
  set (col := PyStr.ljust 24 t) in *.
  rewrite <- Hcol, take_append, drop_append.
  subst col. unfold PyStr.ljust. rewrite rstrip_append_spaces, Hstrip.
  simpl. unfold PyStr.rjust.
  rewrite append_assoc, lstrip_spaces.
  rewrite lstrip_numeral by auto using numeral_str, str_nonempty.
  change (" owner=AI" ++ PyStr.str p)%string
    with (String " " ("owner=AI" ++ PyStr.str p))%string.
  rewrite field_numeral by apply numeral_str.
  simpl. by rewrite !int_str.
Qed.

Lemma territory_names :
  Forall (λ t, all_chars inline_char t = true
               ∧ (String.length t ≤ 24)%nat ∧ PyStr.rstrip t = t)
    _TERRITORIES.
Proof. apply (bool_decide_unpack _). by vm_compute. Qed.

Lemma map_lines_run l w :
  (∀ t, t ∈ l → is_Some (_TROOPS w !! t) ∧ is_Some (_OWNER w !! t)) →
  ∃ ls, (map_lines l w).1 = Ret ls
    ∧ Forall2 (λ t line, ∃ k p, _TROOPS w !! t = Some k ∧ _OWNER w !! t = Some p
                               ∧ line = line_text t k p) l ls.
Proof.
  induction l as [|t l IH]; intros Hl.
  - exists []. by split.
  - destruct (Hl t ltac:(left)) as [[k Hk] [p Hp]].
    destruct IH as (ls & Hls & Hall); [intros; apply Hl; by right|].
    exists (line_text t k p :: ls). split.
    + simpl. unfold map_line. unfold_M. rewrite Hk. simpl. rewrite Hp. simpl.
      pose proof (map_lines_exec l w) as Hw.
      destruct (map_lines l w) as [r w1]. simpl in *. by subst.
    + constructor; [|done]. by exists k, p.
Qed.

(** C8: [get_map()] returns as many lines as there are territories, in
    the sorted order of the names; the line of a territory is its name
    left-justified in 24 columns, " troops=" and the troop count
    right-justified in 2 columns, " owner=AI" and the owner index; and
    reading a line gives back the territory with its troop count and
    owner. *)
Theorem get_map_lines (w : world) :
  (∀ t, t ∈ _TERRITORIES → is_Some (_TROOPS w !! t) ∧ is_Some (_OWNER w !! t)) →
  ∃ txt,
    eval get_map w = Ret txt
    ∧ length (PyStr.splitlines txt) = length _TERRITORIES
    ∧ StronglySorted String.le _TERRITORIES
    ∧ ∀ i t, _TERRITORIES !! i = Some t →
        ∃ k p line,
          _TROOPS w !! t = Some k ∧ _OWNER w !! t = Some p
          ∧ PyStr.splitlines txt !! i = Some line
          ∧ line = (PyStr.ljust 24 t ++ " troops=" ++ PyStr.rjust 2 (PyStr.str k)
                    ++ " owner=AI" ++ PyStr.str p)%string
          ∧ MapLine.parse line = Some (t, k, p).
Proof.
  intros Htot.
  destruct (map_lines_run _TERRITORIES w Htot) as (ls & Hrun & Hall).
  pose proof (map_lines_exec _TERRITORIES w) as Hw.
  pose proof territory_names as Hnames. rewrite Forall_forall in Hnames.
  assert (PyStr.splitlines (PyStr.join NL ls) = ls) as Hsplit.
  { apply splitlines_join, Forall_forall. intros line Hline.
    apply list_elem_of_lookup in Hline as [i Hi].
    destruct (Forall2_lookup_r _ _ _ _ _ Hall Hi) as (t & Ht & k & p & _ & _ & ->).
    apply line_text_inline, Hnames. by eapply list_elem_of_lookup_2. }
  exists (PyStr.join NL ls). split; [|split; [|split]].
  - unfold eval, get_map. unfold_M.
    destruct (map_lines _TERRITORIES w) as [r w1]. simpl in *. by subst.
  - rewrite Hsplit. symmetry. by eapply Forall2_length.
  - apply _TERRITORIES_sorted.
  - intros i t Hi. rewrite Hsplit.
    destruct (Forall2_lookup_l _ _ _ _ _ Hall Hi) as (line & Hline & k & p & Hk & Hp & ->).
    exists k, p, (line_text t k p).
    split; [exact Hk|]. split; [exact Hp|]. split; [exact Hline|].
    split; [reflexivity|].
    apply parse_line_text; apply Hnames; by eapply list_elem_of_lookup_2.
Qed.

Lemma get_map_lines_fresh2 :
  ∃ txt,
    eval get_map fresh2 = Ret txt
    ∧ length (PyStr.splitlines txt) = length _TERRITORIES
    ∧ StronglySorted String.le _TERRITORIES
    ∧ ∀ i t, _TERRITORIES !! i = Some t →
        ∃ k p line,
          _TROOPS fresh2 !! t = Some k ∧ _OWNER fresh2 !! t = Some p
          ∧ PyStr.splitlines txt !! i = Some line
          ∧ line = (PyStr.ljust 24 t ++ " troops=" ++ PyStr.rjust 2 (PyStr.str k)
                    ++ " owner=AI" ++ PyStr.str p)%string
          ∧ MapLine.parse line = Some (t, k, p).
Proof.
  apply (get_map_lines fresh2).
  intros t Ht. split.
  - exists 1. unfold fresh2. by rewrite reset_troops, decide_True.
  - destruct (reset_owner_range 2 _TERRITORIES initial ltac:(lia) ltac:(lia)
                ltac:(reflexivity) t Ht) as (p & Hp & _).
    by exists p.
Defined.

Example line_text_one_digit :
  line_text "Alaska" 1 3 = "Alaska                   troops= 1 owner=AI3".
Proof. reflexivity. Qed.

Example line_text_three_digits :
  line_text "Northwest Territories" 123 10
  = "Northwest Territories    troops=123 owner=AI10".
Proof. reflexivity. Qed.

Example get_map_line_count :
  (λ r, match r with
        | Ret txt => length (PyStr.splitlines txt)
        | Raise _ => 0%nat
        end) (eval get_map forced) = 42%nat.
Proof. by vm_compute. Qed.

(** * Further properties *)

(** ** [reset]: hands, bad player counts, and what is left of the past *)

Lemma territory_count : length _TERRITORIES = 42%nat.
Proof. by rewrite _TERRITORIES_value. Qed.

(** X1: after [reset(n)], [n ≥ 1], player [p] holds [42 // n] territories,
    and one more if [p < 42 % n], whatever the shuffle. *)
Theorem reset_hand_sizes (n : Z) (deck : list string) (w : world) (p : Z) :
  1 ≤ n → deck ≡ₚ _TERRITORIES → 0 ≤ p < n →
  Z.of_nat (owned (exec (reset n deck) w) p)
  = 42 / n + (if decide (p < 42 mod n) then 1 else 0).
Proof.
  intros Hn Hdeck Hp.
  rewrite (reset_owned n deck w) by (done || lia).
  by rewrite territory_count.
Qed.

Lemma reset_hand_sizes_five_players :
  Z.of_nat (owned (exec (reset 5 _TERRITORIES) initial) 1) = 9
  ∧ Z.of_nat (owned (exec (reset 5 _TERRITORIES) initial) 2) = 8.
Proof.
  split.
  - apply (reset_hand_sizes 5 _TERRITORIES initial 1); [lia|reflexivity|lia].
  - apply (reset_hand_sizes 5 _TERRITORIES initial 2); [lia|reflexivity|lia].
Defined.

(** X2: [reset(0)] raises [ZeroDivisionError] half-way: the player list is
    already empty, the turn pointer 0 and the last event "Game reset", but
    owners and troops are still those of the game before. *)
Theorem reset_zero_raises (deck : list string) (w : world) :
  deck ≠ [] →
  let w' := exec (reset 0 deck) w in
  eval (reset 0 deck) w = Raise ZeroDivisionError
  ∧ _PLAYERS w' = [] ∧ _CUR w' = 0 ∧ _LAST w' = "Game reset"
  ∧ _OWNER w' = _OWNER w ∧ _TROOPS w' = _TROOPS w
  ∧ eval next_player w' = Raise ZeroDivisionError.
Proof.
  intros Hdeck w'. subst w'. unfold eval, exec, reset. unfold_M. simpl.
  rewrite deal_zero. destruct deck as [|t deck]; [done|]. simpl.
  repeat split.
Qed.

Lemma reset_zero_raises_after_game :
  eval (reset 0 _TERRITORIES) forced = Raise ZeroDivisionError
  ∧ _PLAYERS (exec (reset 0 _TERRITORIES) forced) = []
  ∧ _CUR (exec (reset 0 _TERRITORIES) forced) = 0
  ∧ _LAST (exec (reset 0 _TERRITORIES) forced) = "Game reset"
  ∧ _OWNER (exec (reset 0 _TERRITORIES) forced) = _OWNER forced
  ∧ _TROOPS (exec (reset 0 _TERRITORIES) forced) = _TROOPS forced
  ∧ eval next_player (exec (reset 0 _TERRITORIES) forced)
    = Raise ZeroDivisionError.
Proof.
  apply (reset_zero_raises _TERRITORIES forced).
  rewrite _TERRITORIES_value. discriminate.
Defined.

(** X3: [reset(n)] with [n < 0] raises nothing: it leaves no player at
    all, owners in [(n, 0]], one troop everywhere; the next
    [next_player()] raises [ZeroDivisionError]. *)
Theorem reset_negative (n : Z) (deck : list string) (w : world) :
  n < 0 → deck ≡ₚ _TERRITORIES →
  let w' := exec (reset n deck) w in
  eval (reset n deck) w = Ret ()
  ∧ _PLAYERS w' = []
  ∧ (∀ t, t ∈ _TERRITORIES → ∃ p, _OWNER w' !! t = Some p ∧ n < p ≤ 0)
  ∧ (∀ t, t ∈ _TERRITORIES → _TROOPS w' !! t = Some 1)
  ∧ eval next_player w' = Raise ZeroDivisionError.
Proof.
  intros Hn Hdeck w'. subst w'. assert (n ≠ 0) as Hn0 by lia.
  destruct (reset_fields n deck w Hn0) as (_ & _ & Hpl & _).
  rewrite seqZ_nil in Hpl by lia.
  split; [by apply reset_returns|]. split; [done|]. split; [|split].
  - intros t Ht. rewrite <- Hdeck in Ht.
    apply list_elem_of_lookup in Ht as [i Hi].
    exists (Z.of_nat i mod n). split; [by apply reset_round_robin|].
    apply Z.mod_neg_bound. lia.
  - intros t Ht. by rewrite reset_troops, decide_True.
  - unfold eval. rewrite next_player_run. by rewrite Hpl.
Qed.

Lemma reset_negative_example :
  eval (reset (-3) _TERRITORIES) initial = Ret ()
  ∧ _PLAYERS (exec (reset (-3) _TERRITORIES) initial) = []
  ∧ (∀ t, t ∈ _TERRITORIES →
       ∃ p, _OWNER (exec (reset (-3) _TERRITORIES) initial) !! t = Some p
            ∧ -3 < p ≤ 0)
  ∧ (∀ t, t ∈ _TERRITORIES →
       _TROOPS (exec (reset (-3) _TERRITORIES) initial) !! t = Some 1)
  ∧ eval next_player (exec (reset (-3) _TERRITORIES) initial)
    = Raise ZeroDivisionError.
Proof.
  apply (reset_negative (-3) _TERRITORIES initial); [lia|reflexivity].
Defined.

Lemma deal_pure n idx deck d w w0 :
  deal n idx deck d w = ((deal n idx deck d w0).1, w).
Proof.
  revert idx d. induction deck as [|t deck IH]; intros idx d; [done|].
  simpl. unfold_M. destruct (n =? 0); [done|]. simpl. apply IH.
Qed.

(** X4: [reset(n)], [n ≠ 0], starts from nothing: owners, troops, players,
    turn pointer and last event after it are the same whatever the state
    before; only the store of neighbour lists is carried over. *)
Theorem reset_forgets (n : Z) (deck : list string) (w1 w2 : world) :
  n ≠ 0 →
  exec (reset n deck) w1
  = set_NEIGHBORS (_NEIGHBORS w1) (exec (reset n deck) w2).
Proof.
  intros Hn. unfold exec, reset. unfold_M. simpl.
  rewrite (deal_pure n 0 deck ∅ _ w1).
  rewrite (deal_pure n 0 deck ∅ (set_LAST _ (set_CUR _ (set_PLAYERS _ w2))) w1).
  destruct (deal_run n 0 deck ∅ w1 Hn) as (d' & -> & _). done.
Qed.

Lemma reset_forgets_forced :
  exec (reset 3 _TERRITORIES) forced
  = set_NEIGHBORS (_NEIGHBORS forced) (exec (reset 3 _TERRITORIES) initial).
Proof. apply (reset_forgets 3 _TERRITORIES forced initial). lia. Defined.

(** ** A game that never moves *)

Lemma quiet_step n w c :
  inv n w → (∀ t, t ∈ _TERRITORIES → _TROOPS w !! t = Some 1) →
  _OWNER (step w c) = _OWNER w ∧ _TROOPS (step w c) = _TROOPS w.
Proof.
  intros Hinv Hone. destruct c; cbn [step];
    rewrite ?getitem_exec, ?is_enemy_exec, ?game_over_exec, ?get_map_exec,
      ?get_neighbors_exec;
    try (split; reflexivity).
  - destruct (one_troop_rejected n w att tgt Hinv Hone) as [msg Hrej].
    by apply rejected_refused in Hrej as (_ & _ & -> & -> & _).
  - unfold exec. rewrite next_player_run. by destruct (_ =? 0).
  - unfold troops. by rewrite getitem_exec.
  - unfold owner. by rewrite getitem_exec.
Qed.

Lemma quiet_run n cs w :
  inv n w → (∀ t, t ∈ _TERRITORIES → _TROOPS w !! t = Some 1) →
  _OWNER (run cs w) = _OWNER w ∧ _TROOPS (run cs w) = _TROOPS w.
Proof.
  revert w. induction cs as [|c cs IH]; intros w Hinv Hone; [done|].
  destruct (quiet_step n w c Hinv Hone) as [Ho Ht].
  destruct (IH (step w c)) as [Ho' Ht'].
  - by apply step_inv.
  - by eapply one_troop_step.
  - change (run (c :: cs) w) with (run cs (step w c)).
    by rewrite Ho', Ht', Ho, Ht.
Qed.

Lemma game_is_frozen_aux n deck w0 cs :
  session w0 → 1 ≤ n → deck ≡ₚ _TERRITORIES →
  _OWNER (run cs (exec (reset n deck) w0)) = _OWNER (exec (reset n deck) w0)
  ∧ _TROOPS (run cs (exec (reset n deck) w0)) = _TROOPS (exec (reset n deck) w0).
Proof.
  intros Hs Hn Hdeck.
  apply (quiet_run n).
  - apply reset_inv; auto using session_store_ok.
  - intros t Ht. rewrite reset_troops by lia. by rewrite decide_True.
Qed.

(** X5: once [reset(n)], [n ≥ 1], has dealt, no sequence of calls to the
    other operations changes an owner or a troop count, and every
    [attack] is rejected: every territory holds one troop and nothing adds
    any. *)
Theorem game_is_frozen (n : Z) (deck : list string) (w0 : world)
    (cs : list call) :
  session w0 → 1 ≤ n → deck ≡ₚ _TERRITORIES →
  let w := run cs (exec (reset n deck) w0) in
  _OWNER w = _OWNER (exec (reset n deck) w0)
  ∧ _TROOPS w = _TROOPS (exec (reset n deck) w0)
  ∧ ∀ att tgt, eval (attack att tgt) w = Ret false.
Proof.
  intros Hs Hn Hdeck w.
  destruct (game_is_frozen_aux n deck w0 cs Hs Hn Hdeck) as [Ho Ht].
  split; [done|]. split; [done|]. intros att tgt.
  destruct (attack_after_reset_is_rejected n deck w0 cs att tgt Hs Hn Hdeck)
    as (msg & Hret & _).
  exact Hret.
Qed.

Lemma game_is_frozen_example :
  _OWNER (run [Attack "Alberta" "Alaska"; NextPlayer; Attack "Alaska" "Alberta"]
            fresh2) = _OWNER fresh2
  ∧ _TROOPS (run [Attack "Alberta" "Alaska"; NextPlayer; Attack "Alaska" "Alberta"]
               fresh2) = _TROOPS fresh2
  ∧ ∀ att tgt,
      eval (attack att tgt)
        (run [Attack "Alberta" "Alaska"; NextPlayer; Attack "Alaska" "Alberta"]
           fresh2) = Ret false.
Proof.
  apply (game_is_frozen 2 _TERRITORIES initial);
    [exact session_import | lia | reflexivity].
Defined.

Lemma game_over_by_owner w first :
  (∀ t, t ∈ _TERRITORIES → is_Some (_OWNER w !! t)) →
  _OWNER w !! "Afghanistan" = Some first →
  ∃ b, eval game_over w = Ret b
       ∧ (b = true ↔ ∀ t, t ∈ _TERRITORIES → _OWNER w !! t = Some first).
Proof.
  intros Hown Hfirst.
  destruct (all_owned_by_spec first _TERRITORIES w Hown) as (b & Hb & Hiff).
  exists b. split; [|done]. unfold eval. by rewrite game_over_run, Hfirst.
Qed.

(** X6: in a game started by [reset(n)], [game_over()] answers [True] when
    [n = 1] and [False] when [n ≥ 2], right after the deal and after any
    sequence of calls: a game with two players or more cannot end. *)
Theorem game_over_is_settled_by_reset (n : Z) (deck : list string)
    (w0 : world) (cs : list call) :
  session w0 → 1 ≤ n → deck ≡ₚ _TERRITORIES →
  eval game_over (run cs (exec (reset n deck) w0)) = Ret (bool_decide (n = 1)).
Proof.
  intros Hs Hn Hdeck. assert (n ≠ 0) as Hn0 by lia.
  destruct (game_is_frozen_aux n deck w0 cs Hs Hn Hdeck) as [Ho _].
  assert (∀ t, t ∈ _TERRITORIES →
            ∃ p, _OWNER (exec (reset n deck) w0) !! t = Some p ∧ 0 ≤ p < n)
    as Hrange by (intros; by apply reset_owner_range).
  assert ("Afghanistan" ∈ _TERRITORIES) as Hfirst
    by (rewrite _TERRITORIES_value; left).
  destruct (Hrange _ Hfirst) as (first & Hp & Hfr).
  destruct (game_over_by_owner (run cs (exec (reset n deck) w0)) first)
    as (b & Hb & Hiff).
  { intros t Ht. rewrite Ho. destruct (Hrange t Ht) as (p & Hpt & _).
    rewrite Hpt. by eexists. }
  { by rewrite Ho. }
  rewrite Hb. f_equal. apply eq_true_iff_eq.
  rewrite Hiff, bool_decide_eq_true, Ho.
  assert (length deck = 42%nat) as Hlen
    by (rewrite (Permutation_length Hdeck); apply territory_count).
  destruct deck as [|t0 [|t1 deck]]; [done..|].
  pose proof (reset_round_robin n (t0 :: t1 :: deck) w0 Hn0 Hdeck 0 t0 eq_refl)
    as H0.
  pose proof (reset_round_robin n (t0 :: t1 :: deck) w0 Hn0 Hdeck 1 t1 eq_refl)
    as H1.
  assert (t0 ∈ _TERRITORIES) as Ht0 by (rewrite <- Hdeck; left).
  assert (t1 ∈ _TERRITORIES) as Ht1 by (rewrite <- Hdeck; right; left).
  split.
  - intros Hall. rewrite (Hall _ Ht0) in H0. rewrite (Hall _ Ht1) in H1.
    destruct (decide (n = 1)) as [|Hne]; [done|].
    simpl in H0, H1. rewrite Z.mod_0_l in H0 by lia.
    rewrite Z.mod_small in H1 by lia.
    assert (0 = Z.of_nat 1) by congruence. lia.
  - intros -> t Ht. destruct (Hrange t Ht) as (p & -> & Hr).
    f_equal. lia.
Qed.

Lemma game_over_is_settled_by_reset_examples :
  eval game_over (run [NextPlayer; Attack "Alberta" "Alaska"]
                    (exec (reset 2 _TERRITORIES) initial)) = Ret false
  ∧ eval game_over (run [] (exec (reset 1 _TERRITORIES) initial)) = Ret true.
Proof.
  split.
  - apply (game_over_is_settled_by_reset 2 _TERRITORIES initial);
      [exact session_import | lia | reflexivity].
  - apply (game_over_is_settled_by_reset 1 _TERRITORIES initial []);
      [exact session_import | lia | reflexivity].
Defined.

(** ** Before the first [reset] *)

Lemma unset_initial : unset initial.
Proof. by constructor. Qed.

Lemma unset_attack att tgt w :
  unset w →
  attack att tgt w =
    if decide (adjacent w att tgt)
    then (Raise (KeyError att), set_NEIGHBORS (dd_get (_NEIGHBORS w) att).2 w)
    else (Ret false,
          set_LAST "Invalid adjacency"
            (set_NEIGHBORS (dd_get (_NEIGHBORS w) att).2 w)).
Proof.
  intros Hu. destruct (decide (adjacent w att tgt)) as [Hadj|Hadj].
  - unfold adjacent, adj in Hadj. unfold attack. unfold_M.
    destruct (dd_get (_NEIGHBORS w) att) as [nb m]; simpl in *.
    rewrite bool_decide_eq_true_2 by done. simpl.
    by rewrite (unset_owner _ Hu), lookup_empty.
  - by apply attack_invalid_adjacency.
Qed.

Lemma unset_same w w' :
  _OWNER w' = _OWNER w → _TROOPS w' = _TROOPS w → _PLAYERS w' = _PLAYERS w →
  (∀ k, adj (_NEIGHBORS w') k = adj (_NEIGHBORS w) k) →
  unset w → unset w'.
Proof.
  intros Ho Ht Hp Hg Hu. constructor.
  - rewrite Ho. apply Hu.
  - rewrite Ht. apply Hu.
  - rewrite Hp. apply Hu.
  - intros k. rewrite Hg. apply Hu.
Qed.

Lemma unset_step w c : unset w → unset (step w c).
Proof.
  intros Hu. destruct c; cbn [step];
    rewrite ?getitem_exec, ?is_enemy_exec, ?game_over_exec, ?get_map_exec;
    try assumption.
  - unfold exec. rewrite (unset_attack att tgt w Hu).
    destruct (decide (adjacent w att tgt));
      (apply (unset_same w); [done..| |done]); intros k; apply adj_dd_get.
  - unfold exec. rewrite next_player_run.
    destruct (_ =? 0); [assumption|]. by apply (unset_same w).
  - rewrite get_neighbors_exec. apply (unset_same w); [done..| |done].
    intros k. apply adj_dd_get.
  - unfold troops. by rewrite getitem_exec.
  - unfold owner. by rewrite getitem_exec.
Qed.

Lemma unset_run cs w : unset w → unset (run cs w).
Proof.
  revert w. induction cs as [|c cs IH]; intros w Hu; [done|].
  apply IH, unset_step, Hu.
Qed.

(** X7: as long as [reset] has not been called, whatever else has been
    called: [owner], [troops] and [is_enemy] raise [KeyError] for every
    name, [game_over] and [get_map] raise [KeyError] on the first
    territory, [next_player] raises [ZeroDivisionError], [my_territories]
    is empty, and [attack] raises [KeyError] on [att] when the two are
    adjacent and is rejected with "Invalid adjacency" when they are not. *)
Theorem before_reset (cs : list call) :
  let w := run cs initial in
  (∀ t, eval (owner t) w = Raise (KeyError t)
        ∧ eval (troops t) w = Raise (KeyError t)
        ∧ eval (is_enemy t) w = Raise (KeyError t))
  ∧ eval game_over w = Raise (KeyError "Afghanistan")
  ∧ eval get_map w = Raise (KeyError "Afghanistan")
  ∧ eval next_player w = Raise ZeroDivisionError
  ∧ eval my_territories w = Ret []
  ∧ (∀ att tgt,
       eval (attack att tgt) w =
         if decide (tgt ∈ adj _build_graph att)
         then Raise (KeyError att) else Ret false).
Proof.
  intros w. assert (unset w) as Hu by apply unset_run, unset_initial.
  pose proof (unset_owner _ Hu) as Ho. pose proof (unset_troops _ Hu) as Ht.
  split; [|split; [|split; [|split; [|split]]]].
  - intros t. split; [|split].
    + unfold owner. apply getitem_unknown. by rewrite Ho, lookup_empty.
    + unfold troops. apply getitem_unknown. by rewrite Ht, lookup_empty.
    + unfold is_enemy. unfold_M. by rewrite Ho, lookup_empty.
  - unfold eval. by rewrite game_over_run, Ho, lookup_empty.
  - unfold eval, get_map. unfold_M. rewrite _TERRITORIES_value. simpl.
    unfold map_line. unfold_M. by rewrite Ht, lookup_empty.
  - unfold eval. by rewrite next_player_run, (unset_players _ Hu).
  - unfold eval, my_territories, gets. simpl.
    by rewrite Ho, map_to_list_empty.
  - intros att tgt. unfold eval. rewrite (unset_attack att tgt w Hu).
    pose proof (unset_graph _ Hu att) as Hg.
    destruct (decide (adjacent w att tgt)) as [Hadj|Hadj],
      (decide (tgt ∈ adj _build_graph att)) as [Hb|Hb];
      simpl; try reflexivity; unfold adjacent in Hadj; rewrite Hg in Hadj;
      contradiction.
Qed.

(** ** More on [attack] *)

(** X8: attacking a territory from itself is always rejected with
    "Invalid adjacency", whoever owns it and however many troops it
    holds. *)
Theorem attack_self (w : world) (t : string) :
  session w → refused "Invalid adjacency" t t w.
Proof.
  intros Hok%session_store_ok.
  apply rejected_refused, attack_invalid_adjacency.
  unfold adjacent. rewrite (store_graph _ Hok), elem_of_adj_build_graph.
  intros [H|H]; by apply edges_no_loop in H.
Qed.

Lemma attack_self_fresh2 : refused "Invalid adjacency" "Alberta" "Alberta" fresh2.
Proof.
  apply (attack_self fresh2 "Alberta").
  apply session_reset; [reflexivity | exact session_import].
Defined.

Lemma fresh2_inv : inv 2 fresh2.
Proof.
  apply reset_inv; [lia|reflexivity|apply store_ok_initial].
Qed.

Lemma forced_inv : inv 2 forced.
Proof.
  pose proof fresh2_inv as Hinv.
  assert ("Alberta" ∈ _TERRITORIES) as HA
    by (rewrite _TERRITORIES_value; do 2 right; left).
  constructor.
  - exact (inv_players _ _ Hinv).
  - exact (inv_cur _ _ Hinv).
  - exact (inv_owner _ _ Hinv).
  - intros t Ht. unfold forced. cbn [_TROOPS set_TROOPS].
    destruct (decide (t = "Alberta")) as [->|Hne].
    + exists 10. by rewrite lookup_insert_eq.
    + rewrite lookup_insert_ne by done. exact (inv_troops _ _ Hinv t Ht).
  - constructor.
    + exact (store_graph _ (inv_store _ _ Hinv)).
    + exact (store_owner_dom _ (inv_store _ _ Hinv)).
    + intros t. unfold forced. cbn [_TROOPS set_TROOPS].
      destruct (decide (t = "Alberta")) as [->|Hne]; [done|].
      rewrite lookup_insert_ne by done.
      exact (store_troops_dom _ (inv_store _ _ Hinv) t).
Qed.

(** X9: a successful attack cannot be repeated: the same call made again
    right away is rejected with "Invalid ownership", the target now being
    the current player's. *)
Theorem attack_twice (w : world) (att tgt : string) (n q a b : Z) :
  adjacent w att tgt →
  _OWNER w !! att = Some (_CUR w) →
  _OWNER w !! tgt = Some q → q ≠ _CUR w →
  _TROOPS w !! att = Some a → _TROOPS w !! tgt = Some b →
  a > b + 1 →
  _PLAYERS w = player_name <$> seqZ 0 n → 0 ≤ _CUR w < n →
  refused "Invalid ownership" att tgt (exec (attack att tgt) w).
Proof.
  intros Hadj Hatt Htgt Hq Ha Hb Hforce Hpl Hcur.
  assert (att ≠ tgt) as Hne by (intros ->; congruence).
  apply rejected_refused, (attack_invalid_ownership _ _ _ (_CUR w)).
  - unfold adjacent. by rewrite attack_NEIGHBORS.
  - by rewrite attack_owner_frame.
  - right. rewrite attack_CUR. unfold exec.
    rewrite (attack_success_run w att tgt n q a b) by done. simpl.
    apply lookup_insert_eq.
Qed.

Lemma attack_twice_forced :
  refused "Invalid ownership" "Alberta" "Alaska"
    (exec (attack "Alberta" "Alaska") forced).
Proof.
  apply (attack_twice forced "Alberta" "Alaska" 2 1 10 1).
  - exact forced_adjacent.
  - vm_compute; reflexivity.
  - vm_compute; reflexivity.
  - vm_compute; discriminate.
  - vm_compute; reflexivity.
  - vm_compute; reflexivity.
  - lia.
  - vm_compute; reflexivity.
  - vm_compute; split; [discriminate | reflexivity].
Defined.

Lemma sum_insert (d : gmap string Z) (l : list string) x v :
  NoDup l →
  foldr (λ t acc, default 0 (<[x := v]> d !! t) + acc) 0 l
  = foldr (λ t acc, default 0 (d !! t) + acc) 0 l
    + (if decide (x ∈ l) then v - default 0 (d !! x) else 0).
Proof.
  induction 1 as [|t l Ht Hl IH]; simpl.
  - destruct (decide (x ∈ [])) as [[]%elem_of_nil|]; lia.
  - rewrite IH.
    destruct (decide (x ∈ l)) as [Hx|Hx], (decide (x ∈ t :: l)) as [Hx'|Hx'].
    + rewrite lookup_insert_ne by (intros ->; done). lia.
    + destruct Hx'. by right.
    + apply elem_of_cons in Hx' as [-> | ?]; [|done].
      rewrite lookup_insert_eq. simpl. lia.
    + rewrite lookup_insert_ne; [lia|]. intros ->. apply Hx'. by left.
Qed.

(** What a capture does, given the invariant of a game. *)
Lemma attack_capture n w att tgt :
  inv n w → eval (attack att tgt) w = Ret true →
  ∃ q a b,
    adjacent w att tgt
    ∧ _OWNER w !! att = Some (_CUR w)
    ∧ _OWNER w !! tgt = Some q ∧ q ≠ _CUR w
    ∧ _TROOPS w !! att = Some a ∧ _TROOPS w !! tgt = Some b
    ∧ 1 ≤ b ∧ a > b + 1.
Proof.
  intros Hinv Hret.
  destruct (attack_cases n w att tgt Hinv) as [[msg Hrej]|Hok]; [|done].
  unfold eval in Hret. rewrite Hrej in Hret. discriminate.
Qed.

(** X10: in a game, whenever [attack] returns [True] the attacker had at
    least three troops, exactly [troops(att) // 2] of them move (the
    [max(1, ...)] never takes effect), the attacker keeps the other half,
    rounded up, and the defender's troops are lost: the total on the board
    drops by [troops(tgt)]. *)
Theorem attack_troop_balance (n : Z) (w : world) (att tgt : string) :
  inv n w → eval (attack att tgt) w = Ret true →
  ∃ a b,
    _TROOPS w !! att = Some a ∧ _TROOPS w !! tgt = Some b
    ∧ 3 ≤ a
    ∧ _TROOPS (exec (attack att tgt) w) !! tgt = Some (a / 2)
    ∧ _TROOPS (exec (attack att tgt) w) !! att = Some (a - a / 2)
    ∧ 0 ≤ (a - a / 2) - a / 2 ≤ 1
    ∧ total_troops (exec (attack att tgt) w) = total_troops w - b.
Proof.
  intros Hinv Hret.
  destruct (attack_capture n w att tgt Hinv Hret)
    as (q & a & b & Hadj & Hoa & Hot & Hq & Ha & Hb & Hb1 & Hab).
  assert (att ≠ tgt) as Hne by (intros ->; congruence).
  destruct (adjacent_territories w att tgt (inv_store _ _ Hinv) Hadj) as [Hat Htt].
  exists a, b.
  assert (Z.max 1 (a / 2) = a / 2) as Hmove.
  { apply Z.max_r. apply Z.div_le_lower_bound; lia. }
  pose proof (attack_success_run w att tgt n q a b Hadj Hoa Hot Hq Ha Hb Hab
                (inv_players _ _ Hinv) (inv_cur _ _ Hinv)) as Hrun.
  rewrite Hmove in Hrun.
  split; [done|]. split; [done|]. split; [lia|].
  unfold exec. rewrite Hrun. simpl.
  split; [apply lookup_insert_eq|].
  split; [by rewrite lookup_insert_ne, lookup_insert_eq|].
  split.
  - pose proof (Z.div_mod a 2 ltac:(lia)).
    pose proof (Z.mod_pos_bound a 2 ltac:(lia)). lia.
  - unfold total_troops. simpl.
    rewrite !sum_insert by apply _TERRITORIES_NoDup.
    rewrite !decide_True by done.
    rewrite lookup_insert_ne, Ha, Hb by done. simpl. lia.
Qed.

Lemma attack_troop_balance_forced :
  ∃ a b,
    _TROOPS forced !! "Alberta" = Some a ∧ _TROOPS forced !! "Alaska" = Some b
    ∧ 3 ≤ a
    ∧ _TROOPS (exec (attack "Alberta" "Alaska") forced) !! "Alaska" = Some (a / 2)
    ∧ _TROOPS (exec (attack "Alberta" "Alaska") forced) !! "Alberta"
      = Some (a - a / 2)
    ∧ 0 ≤ (a - a / 2) - a / 2 ≤ 1
    ∧ total_troops (exec (attack "Alberta" "Alaska") forced)
      = total_troops forced - b.
Proof.
  apply (attack_troop_balance 2 forced "Alberta" "Alaska").
  - exact forced_inv.
  - vm_compute; reflexivity.
Defined.

(** X11: from any state in which every territory has an owner in
    [[0, n)] and at least one troop (set up by hand or not), [attack]
    answers [True] or [False] without raising, for any two strings, and
    leaves such a state. *)
Theorem attack_never_raises_in_game (n : Z) (w : world) (att tgt : string) :
  inv n w →
  (∃ r, eval (attack att tgt) w = Ret r) ∧ inv n (exec (attack att tgt) w).
Proof.
  intros Hinv. split; [|by apply attack_inv].
  destruct (attack_cases n w att tgt Hinv)
    as [[msg Hrej]|(q & a & b & Hadj & Hoa & Hot & Hq & Ha & Hb & Hb1 & Hab)].
  - exists false. unfold eval. by rewrite Hrej.
  - exists true. unfold eval.
    by rewrite (attack_success_run w att tgt n q a b Hadj Hoa Hot Hq Ha Hb Hab
                  (inv_players _ _ Hinv) (inv_cur _ _ Hinv)).
Qed.

Lemma attack_never_raises_in_game_forced :
  (∃ r, eval (attack "Kamchatka" "Atlantis") forced = Ret r)
  ∧ inv 2 (exec (attack "Kamchatka" "Atlantis") forced).
Proof.
  apply (attack_never_raises_in_game 2 forced "Kamchatka" "Atlantis").
  exact forced_inv.
Defined.

(** ** The queries *)

Lemma my_territories_run w :
  ∃ l, my_territories w = (Ret l, w)
       ∧ NoDup l
       ∧ ∀ t, t ∈ l ↔ _OWNER w !! t = Some (_CUR w).
Proof.
  eexists. split; [reflexivity|]. split.
  - eapply sublist_NoDup; [apply (NoDup_fst_map_to_list (_OWNER w))|].
    apply fmap_sublist, sublist_filter.
  - intros t. rewrite list_elem_of_fmap. split.
    + intros ([t' p] & -> & [Hp Hin]%list_elem_of_filter). simpl in *.
      apply elem_of_map_to_list in Hin. by subst.
    + intros Ht. exists (t, _CUR w). split; [done|].
      apply list_elem_of_filter. split; [done|]. by apply elem_of_map_to_list.
Qed.

(** X12: [my_territories()] changes nothing and returns, each once, exactly
    the names whose owner is the current player; these are the names for
    which [is_enemy] answers [False], and, in any state of a process, the
    territories of the current player and nothing else. *)
Theorem my_territories_are_mine (w : world) :
  ∃ l,
    eval my_territories w = Ret l
    ∧ exec my_territories w = w
    ∧ NoDup l
    ∧ (∀ t, t ∈ l ↔ _OWNER w !! t = Some (_CUR w))
    ∧ (∀ t, t ∈ l ↔ eval (is_enemy t) w = Ret false)
    ∧ (store_ok w →
       l ≡ₚ filter (λ t, _OWNER w !! t = Some (_CUR w)) _TERRITORIES).
Proof.
  destruct (my_territories_run w) as (l & Hrun & Hnd & Hmem).
  exists l. unfold eval, exec. rewrite Hrun.
  split; [done|]. split; [done|]. split; [done|]. split; [done|]. split.
  - intros t. rewrite Hmem. unfold is_enemy. unfold_M.
    destruct (_OWNER w !! t) as [p|]; simpl; [|by split].
    destruct (Z.eqb_spec p (_CUR w)) as [->|Hne]; simpl; [done|].
    split; [congruence|done].
  - intros Hok. apply NoDup_Permutation; [done| |].
    + apply NoDup_filter, _TERRITORIES_NoDup.
    + intros t. rewrite Hmem, list_elem_of_filter. split; [|tauto].
      intros Ht. split; [done|]. apply (store_owner_dom _ Hok). by eexists.
Qed.

(** ** What the builder keeps *)

Section keys.
Implicit Types (m : gmap string (list string)) (a b k x : string).

Lemma no_empty_add_neighbor a b m : no_empty m → no_empty (add_neighbor a b m).
Proof.
  intros Hm k l. unfold add_neighbor, dd_get.
  destruct (m !! a) as [la|] eqn:Ha; simpl.
  - destruct (decide (b ∈ la)) as [Hb|Hb].
    + rewrite bool_decide_eq_true_2 by done. apply Hm.
    + rewrite bool_decide_eq_false_2 by done.
      destruct (decide (k = a)) as [->|Hne].
      * rewrite lookup_insert_eq. intros [= <-]. by destruct la.
      * rewrite lookup_insert_ne by done. apply Hm.
  - rewrite ?bool_decide_eq_false_2 by apply not_elem_of_nil.
    destruct (decide (k = a)) as [->|Hne].
    + rewrite lookup_insert_eq. by intros [= <-].
    + rewrite !lookup_insert_ne by done. apply Hm.
Qed.

Lemma no_empty_foldl es m : no_empty m → no_empty (foldl add_edge m es).
Proof.
  revert m. induction es as [|e es IH]; intros m Hm; [done|].
  simpl. by apply IH, no_empty_add_neighbor, no_empty_add_neighbor.
Qed.

Lemma no_empty_key m k : no_empty m → is_Some (m !! k) ↔ adj m k ≠ [].
Proof.
  intros Hm. rewrite adj_lookup. destruct (m !! k) as [l|] eqn:Hk; simpl.
  - split; [intros _; by eapply Hm|by eexists].
  - split; [by intros []|done].
Qed.

End keys.

(** X15: whatever lines the builder is given, a name becomes a key of the
    graph, hence a territory, exactly when it stands next to another name
    in some chain; its list then holds exactly the names it stands next
    to and is never empty.  A name alone on its line is dropped. *)
Theorem builder_keeps_linked_names (lines : list string) :
  let G := build_from lines in
  let es := lines ≫= (λ line, pairs (chain_of_line line)) in
  (∀ k x, x ∈ adj G k ↔ (k, x) ∈ es ∨ (x, k) ∈ es)
  ∧ (∀ k, is_Some (G !! k) ↔ ∃ x, (k, x) ∈ es ∨ (x, k) ∈ es)
  ∧ (∀ k, k ∈ sorted (map_to_list G).*1 ↔ ∃ x, (k, x) ∈ es ∨ (x, k) ∈ es)
  ∧ (∀ k l, G !! k = Some l → l ≠ []).
Proof.
  intros G es.
  assert (G = foldl add_edge ∅ es) as HG by apply foldl_chains.
  assert (no_empty G) as Hne.
  { rewrite HG. apply no_empty_foldl. intros k l. by rewrite lookup_empty. }
  assert (∀ k x, x ∈ adj G k ↔ (k, x) ∈ es ∨ (x, k) ∈ es) as Hadj.
  { intros k x. rewrite HG, elem_of_adj_foldl, adj_lookup, lookup_empty.
    simpl. rewrite elem_of_nil. tauto. }
  assert (∀ k, is_Some (G !! k) ↔ ∃ x, (k, x) ∈ es ∨ (x, k) ∈ es) as Hkey.
  { intros k. rewrite (no_empty_key G k Hne). split.
    - intros Hl. destruct (adj G k) as [|x l] eqn:Hk; [done|].
      exists x. apply Hadj. rewrite Hk. left.
    - intros [x Hx%Hadj] Hnil. rewrite Hnil in Hx. by apply elem_of_nil in Hx. }
  split; [done|]. split; [done|]. split; [|done].
  intros k. rewrite <- Hkey. unfold sorted.
  rewrite merge_sort_Permutation, list_elem_of_fmap. split.
  - intros ([k' l] & -> & Hkl%elem_of_map_to_list). by eexists.
  - intros [l Hl]. exists (k, l). split; [done|]. by apply elem_of_map_to_list.
Qed.

Example lone_name_is_dropped :
  sorted (map_to_list (build_from ["Atlantis"; "Alaska--Alberta"])).*1
  = ["Alaska"; "Alberta"].
Proof. by vm_compute. Qed.

Lemma _build_graph_no_empty : no_empty _build_graph.
Proof.
  rewrite _build_graph_edges. apply no_empty_foldl.
  intros k l. by rewrite lookup_empty.
Qed.

(** X13: in any state of a process, [get_neighbors(t)] raises nothing and
    returns the list of the built graph, which is empty exactly when [t]
    is no territory; no call made before changes what it returns; it
    touches no owner, troop count, player, turn pointer or last event,
    and on a territory it changes nothing at all. *)
Theorem get_neighbors_is_stable (w : world) (t : string) :
  session w →
  let w' := exec (get_neighbors t) w in
  eval (get_neighbors t) w = Ret (adj _build_graph t)
  ∧ (t ∈ _TERRITORIES ↔ adj _build_graph t ≠ [])
  ∧ _OWNER w' = _OWNER w ∧ _TROOPS w' = _TROOPS w
  ∧ _PLAYERS w' = _PLAYERS w ∧ _CUR w' = _CUR w ∧ _LAST w' = _LAST w
  ∧ (t ∈ _TERRITORIES → w' = w).
Proof.
  intros Hok%session_store_ok w'. subst w'.
  rewrite get_neighbors_exec.
  pose proof (store_graph _ Hok t) as Hg.
  split.
  { unfold eval, get_neighbors, neighbors_getitem.
    unfold adj in Hg. destruct (dd_get (_NEIGHBORS w) t); simpl in *.
    by rewrite Hg. }
  assert (t ∈ _TERRITORIES ↔ adj _build_graph t ≠ []) as Hkey.
  { rewrite _TERRITORIES_keys. apply no_empty_key, _build_graph_no_empty. }
  split; [done|]. do 5 (split; [done|]).
  intros Ht%Hkey. rewrite <- Hg, adj_lookup in Ht. unfold dd_get.
  destruct (_NEIGHBORS w !! t); simpl in *.
  - destruct w; reflexivity.
  - destruct Ht; reflexivity.
Qed.

Lemma get_neighbors_is_stable_fresh2 :
  eval (get_neighbors "Alaska") fresh2 = Ret (adj _build_graph "Alaska")
  ∧ ("Alaska" ∈ _TERRITORIES ↔ adj _build_graph "Alaska" ≠ [])
  ∧ _OWNER (exec (get_neighbors "Alaska") fresh2) = _OWNER fresh2
  ∧ _TROOPS (exec (get_neighbors "Alaska") fresh2) = _TROOPS fresh2
  ∧ _PLAYERS (exec (get_neighbors "Alaska") fresh2) = _PLAYERS fresh2
  ∧ _CUR (exec (get_neighbors "Alaska") fresh2) = _CUR fresh2
  ∧ _LAST (exec (get_neighbors "Alaska") fresh2) = _LAST fresh2
  ∧ ("Alaska" ∈ _TERRITORIES → exec (get_neighbors "Alaska") fresh2 = fresh2).
Proof.
  apply (get_neighbors_is_stable fresh2 "Alaska").
  apply session_reset; [reflexivity | exact session_import].
Defined.

(** ** Turns *)

Lemma set_CUR_same w : set_CUR (_CUR w) w = w.
Proof. by destruct w. Qed.

Lemma next_player_exec n w :
  inv n w → exec next_player w = set_CUR ((_CUR w + 1) mod n) w.
Proof.
  intros Hinv. unfold exec. rewrite next_player_run.
  rewrite (inv_players _ _ Hinv).
  pose proof (inv_cur _ _ Hinv) as Hcur.
  rewrite players_length by lia.
  by destruct (Z.eqb_spec n 0) as [|_]; [lia|].
Qed.

Lemma next_player_repeated_state n w (k : nat) :
  inv n w →
  run (replicate k NextPlayer) w = set_CUR ((_CUR w + Z.of_nat k) mod n) w.
Proof.
  revert w. induction k as [|k IH]; intros w Hinv.
  - simpl. rewrite Z.add_0_r, Z.mod_small by apply Hinv.
    symmetry. apply set_CUR_same.
  - change (run (replicate (S k) NextPlayer) w)
      with (run (replicate k NextPlayer) (exec next_player w)).
    rewrite IH by (by apply next_player_inv).
    rewrite (next_player_exec n w Hinv). simpl.
    rewrite Zplus_mod_idemp_l. unfold set_CUR. simpl.
    do 2 f_equal. lia.
Qed.

(** X14: in a game started by [reset(n)], [n ≥ 1], [next_player()] changes
    the turn pointer and nothing else, and [n] calls in a row give back
    the very state they started from. *)
Theorem next_player_full_cycle (n : Z) (deck : list string) (w0 : world)
    (cs : list call) :
  session w0 → 1 ≤ n → deck ≡ₚ _TERRITORIES →
  let w := run cs (exec (reset n deck) w0) in
  exec next_player w = set_CUR ((_CUR w + 1) mod n) w
  ∧ run (replicate (Z.to_nat n) NextPlayer) w = w.
Proof.
  intros Hs Hn Hdeck w.
  assert (inv n w) as Hinv
    by (apply run_inv, reset_inv; auto using session_store_ok).
  split; [by apply next_player_exec|].
  rewrite (next_player_repeated_state n) by done.
  rewrite Z2Nat.id by lia.
  replace (_CUR w + n) with (_CUR w + 1 * n) by lia.
  rewrite Z.mod_add by lia. rewrite Z.mod_small by apply Hinv.
  apply set_CUR_same.
Qed.

Lemma next_player_full_cycle_three_players :
  exec next_player (run [NextPlayer] (exec (reset 3 _TERRITORIES) initial))
  = set_CUR
      ((_CUR (run [NextPlayer] (exec (reset 3 _TERRITORIES) initial)) + 1) mod 3)
      (run [NextPlayer] (exec (reset 3 _TERRITORIES) initial))
  ∧ run (replicate (Z.to_nat 3) NextPlayer)
      (run [NextPlayer] (exec (reset 3 _TERRITORIES) initial))
    = run [NextPlayer] (exec (reset 3 _TERRITORIES) initial).
Proof.
  apply (next_player_full_cycle 3 _TERRITORIES initial [NextPlayer]);
    [exact session_import | lia | reflexivity].
Defined.

(** ** Widths of the map dump *)

Lemma length_ljust n s :
  String.length (PyStr.ljust n s) = Nat.max n (String.length s).
Proof. unfold PyStr.ljust. rewrite length_append, length_spaces. lia. Qed.

Lemma length_rjust n s :
  String.length (PyStr.rjust n s) = Nat.max n (String.length s).
Proof. unfold PyStr.rjust. rewrite length_append, length_spaces. lia. Qed.

(** X16: a line of the dump is as long as the name or 24, plus the troop
    count or 2, plus the owner index, plus 17 for the labels; nothing is
    ever cut.  The troop column is 2 wide for counts from 0 to 99 and 3
    wide from 100 to 999, which moves the owner column by one. *)
Theorem line_text_width (t : string) (k p : Z) :
  String.length (line_text t k p)
  = (Nat.max 24 (String.length t) + 8
     + Nat.max 2 (String.length (PyStr.str k)) + 9
     + String.length (PyStr.str p))%nat
  ∧ (0 ≤ k ≤ 99 → String.length (PyStr.rjust 2 (PyStr.str k)) = 2%nat)
  ∧ (100 ≤ k ≤ 999 → String.length (PyStr.rjust 2 (PyStr.str k)) = 3%nat).
Proof.
  split; [|split].
  - unfold line_text.
    rewrite !length_append, length_ljust, length_rjust. simpl. lia.
  - intros Hk.
    assert (Forall (λ k, String.length (PyStr.rjust 2 (PyStr.str k)) = 2%nat)
              (seqZ 0 100)) as H
      by (apply (bool_decide_unpack _); by vm_compute).
    rewrite Forall_forall in H. apply H, elem_of_seqZ. lia.
  - intros Hk.
    assert (Forall (λ k, String.length (PyStr.rjust 2 (PyStr.str k)) = 3%nat)
              (seqZ 100 900)) as H
      by (apply (bool_decide_unpack _); by vm_compute).
    rewrite Forall_forall in H. apply H, elem_of_seqZ. lia.
Qed.

(** ** The class *)

(** X17: a game made through [World()] or [World.reset()] always has the
    four players AI_0 .. AI_3, whatever game was there before, and deals
    them 11, 11, 10 and 10 territories, whatever the shuffle. *)
Theorem world_class_deals_four (deck : list string) (w : world) :
  deck ≡ₚ _TERRITORIES →
  let w' := exec (WorldClass.reset deck) w in
  WorldClass.init deck = WorldClass.reset deck
  ∧ eval (WorldClass.reset deck) w = Ret ()
  ∧ _PLAYERS w' = ["AI_0"; "AI_1"; "AI_2"; "AI_3"]
  ∧ _CUR w' = 0
  ∧ owned w' 0 = 11%nat ∧ owned w' 1 = 11%nat
  ∧ owned w' 2 = 10%nat ∧ owned w' 3 = 10%nat.
Proof.
  intros Hdeck w'. subst w'. unfold WorldClass.reset, WorldClass.init.
  assert ((4:Z) ≠ 0) as Hn0 by lia.
  destruct (reset_fields 4 deck w Hn0) as (Hcur & _ & Hpl & _).
  split; [done|]. split; [by apply reset_returns|].
  split; [by rewrite Hpl|]. split; [done|].
  assert (∀ p, 0 ≤ p < 4 →
            Z.of_nat (owned (exec (reset 4 deck) w) p)
            = 10 + (if decide (p < 2) then 1 else 0)) as Hown.
  { intros p Hp. rewrite (reset_owned 4 deck w) by (done || lia).
    by rewrite territory_count. }
  pose proof (Hown 0 ltac:(lia)) as H0. pose proof (Hown 1 ltac:(lia)) as H1.
  pose proof (Hown 2 ltac:(lia)) as H2. pose proof (Hown 3 ltac:(lia)) as H3.
  repeat case_decide; repeat split; lia.
Qed.

Lemma world_class_deals_four_example :
  WorldClass.init _TERRITORIES = WorldClass.reset _TERRITORIES
  ∧ eval (WorldClass.reset _TERRITORIES) forced = Ret ()
  ∧ _PLAYERS (exec (WorldClass.reset _TERRITORIES) forced)
    = ["AI_0"; "AI_1"; "AI_2"; "AI_3"]
  ∧ _CUR (exec (WorldClass.reset _TERRITORIES) forced) = 0
  ∧ owned (exec (WorldClass.reset _TERRITORIES) forced) 0 = 11%nat
  ∧ owned (exec (WorldClass.reset _TERRITORIES) forced) 1 = 11%nat
  ∧ owned (exec (WorldClass.reset _TERRITORIES) forced) 2 = 10%nat
  ∧ owned (exec (WorldClass.reset _TERRITORIES) forced) 3 = 10%nat.
Proof. apply (world_class_deals_four _TERRITORIES forced). reflexivity. Defined.

(** ** The action space *)

Lemma elem_of_actions att tgt :
  (att, tgt) ∈ actions ↔ att ∈ _TERRITORIES ∧ tgt ∈ adj _build_graph att.
Proof.
  unfold actions. rewrite list_elem_of_bind. split.
  - intros (a & Hin & Ha). apply list_elem_of_fmap in Hin as (b & [= -> ->] & Hb).
    done.
  - intros [Ha Hb]. exists att. split; [|done].
    apply list_elem_of_fmap. by exists tgt.
Qed.

(** X18: [n_actions] is the number of pairs [(att, tgt)] that pass the
    adjacency check of [attack], in any state of a process: no attack
    outside these pairs gets past the first check. *)
Theorem n_actions_counts_adjacent_pairs :
  NoDup actions
  ∧ Z.of_nat (length actions) = n_actions
  ∧ ∀ w att tgt, session w → (adjacent w att tgt ↔ (att, tgt) ∈ actions).
Proof.
  split; [|split].
  - apply (bool_decide_unpack _). by vm_compute.
  - by vm_compute.
  - intros w att tgt Hok%session_store_ok. rewrite elem_of_actions.
    split.
    + intros Hadj.
      destruct (adjacent_territories w att tgt Hok Hadj) as [Ha _].
      split; [done|]. unfold adjacent in Hadj.
      by rewrite (store_graph _ Hok) in Hadj.
    + intros [_ Hb]. unfold adjacent. by rewrite (store_graph _ Hok).
Qed.

(** ** Captures and the end of the game *)

Lemma attack_capture_owner n w att tgt :
  inv n w → eval (attack att tgt) w = Ret true →
  _OWNER (exec (attack att tgt) w) = <[tgt := _CUR w]> (_OWNER w).
Proof.
  intros Hinv Hret.
  destruct (attack_capture n w att tgt Hinv Hret)
    as (q & a & b & Hadj & Hoa & Hot & Hq & Ha & Hb & Hb1 & Hab).
  unfold exec.
  by rewrite (attack_success_run w att tgt n q a b Hadj Hoa Hot Hq Ha Hb Hab
                (inv_players _ _ Hinv) (inv_cur _ _ Hinv)).
Qed.

(** X19: in a game, when [attack] returns [True] exactly one territory
    changes hands: [tgt] goes from a player other than the current one to
    the current one, every other owner stays, and [my_territories()]
    afterwards is what it was before plus [tgt]. *)
Theorem capture_changes_one_owner (n : Z) (w : world) (att tgt : string) :
  inv n w → eval (attack att tgt) w = Ret true →
  let w' := exec (attack att tgt) w in
  (∃ q, _OWNER w !! tgt = Some q ∧ q ≠ _CUR w)
  ∧ _OWNER w' !! tgt = Some (_CUR w)
  ∧ (∀ t, t ≠ tgt → _OWNER w' !! t = _OWNER w !! t)
  ∧ ∃ l l',
      eval my_territories w = Ret l ∧ eval my_territories w' = Ret l'
      ∧ (tgt ∉ l)
      ∧ ∀ t, t ∈ l' ↔ t ∈ l ∨ t = tgt.
Proof.
  intros Hinv Hret w'. subst w'.
  pose proof (attack_capture_owner n w att tgt Hinv Hret) as Ho.
  destruct (attack_capture n w att tgt Hinv Hret)
    as (q & a & b & _ & _ & Hot & Hq & _).
  split; [by exists q|]. rewrite Ho.
  split; [apply lookup_insert_eq|].
  split; [intros t Ht; by rewrite lookup_insert_ne|].
  destruct (my_territories_run w) as (l & Hl & _ & Hmem).
  destruct (my_territories_run (exec (attack att tgt) w)) as (l' & Hl' & _ & Hmem').
  exists l, l'. unfold eval. rewrite Hl, Hl'.
  split; [done|]. split; [done|]. split.
  - rewrite Hmem, Hot. congruence.
  - intros t. rewrite Hmem', Hmem, Ho, attack_CUR.
    destruct (decide (t = tgt)) as [->|Hne].
    + rewrite lookup_insert_eq. tauto.
    + rewrite lookup_insert_ne by done. tauto.
Qed.

Lemma capture_changes_one_owner_forced :
  (∃ q, _OWNER forced !! "Alaska" = Some q ∧ q ≠ _CUR forced)
  ∧ _OWNER (exec (attack "Alberta" "Alaska") forced) !! "Alaska"
    = Some (_CUR forced)
  ∧ (∀ t, t ≠ "Alaska" →
       _OWNER (exec (attack "Alberta" "Alaska") forced) !! t
       = _OWNER forced !! t)
  ∧ ∃ l l',
      eval my_territories forced = Ret l
      ∧ eval my_territories (exec (attack "Alberta" "Alaska") forced) = Ret l'
      ∧ ("Alaska" ∉ l)
      ∧ ∀ t, t ∈ l' ↔ t ∈ l ∨ t = "Alaska".
Proof.
  apply (capture_changes_one_owner 2 forced "Alberta" "Alaska").
  - exact forced_inv.
  - vm_compute; reflexivity.
Defined.

(** X20: in a game, once [game_over()] answers [True] every [attack] is
    rejected: with a single owner left nothing can change hands again. *)
Theorem game_over_blocks_attacks (n : Z) (w : world) (att tgt : string) :
  inv n w → eval game_over w = Ret true →
  ∃ msg, refused msg att tgt w.
Proof.
  intros Hinv Hover.
  destruct (attack_cases n w att tgt Hinv)
    as [[msg Hrej]|(q & a & b & Hadj & Hoa & Hot & Hq & _)].
  { exists msg. by apply rejected_refused. }
  destruct (adjacent_territories w att tgt (inv_store _ _ Hinv) Hadj) as [Hat Htt].
  assert ("Afghanistan" ∈ _TERRITORIES) as Hfirst
    by (rewrite _TERRITORIES_value; left).
  destruct (inv_owner _ _ Hinv _ Hfirst) as (first & Hp & _).
  destruct (game_over_by_owner w first) as (r & Hr & Hiff); [|done|].
  { intros t Ht. destruct (inv_owner _ _ Hinv t Ht) as (p & -> & _). by eexists. }
  rewrite Hover in Hr. injection Hr as <-.
  pose proof (proj1 Hiff eq_refl) as Hall.
  rewrite (Hall _ Hat) in Hoa. rewrite (Hall _ Htt) in Hot. congruence.
Qed.

Lemma game_over_blocks_attacks_one_player :
  ∃ msg, refused msg "Alberta" "Alaska" (exec (reset 1 _TERRITORIES) initial).
Proof.
  apply (game_over_blocks_attacks 1).
  - apply reset_inv; [lia | reflexivity | exact store_ok_initial].
  - vm_compute; reflexivity.
Defined.

(** X21: in a game, when the current player owns every territory but
    [tgt] and [attack(att, tgt)] returns [True], [game_over()] answers
    [False] before the call and [True] after it. *)
Theorem last_capture_ends_game (n : Z) (w : world) (att tgt : string) :
  inv n w → eval (attack att tgt) w = Ret true →
  (∀ t, t ∈ _TERRITORIES → t ≠ tgt → _OWNER w !! t = Some (_CUR w)) →
  eval game_over w = Ret false
  ∧ eval game_over (exec (attack att tgt) w) = Ret true.
Proof.
  intros Hinv Hret Hrest.
  pose proof (attack_capture_owner n w att tgt Hinv Hret) as Ho.
  destruct (attack_capture n w att tgt Hinv Hret)
    as (q & a & b & Hadj & Hoa & Hot & Hq & _).
  destruct (adjacent_territories w att tgt (inv_store _ _ Hinv) Hadj) as [Hat Htt].
  assert ("Afghanistan" ∈ _TERRITORIES) as Hfirst
    by (rewrite _TERRITORIES_value; left).
  split.
  - destruct (inv_owner _ _ Hinv _ Hfirst) as (first & Hp & _).
    destruct (game_over_by_owner w first) as (r & -> & Hiff); [|done|].
    { intros t Ht. destruct (inv_owner _ _ Hinv t Ht) as (p & -> & _).
      by eexists. }
    f_equal. destruct r; [|done].
    pose proof (proj1 Hiff eq_refl) as Hall.
    rewrite (Hall _ Hat) in Hoa. rewrite (Hall _ Htt) in Hot. congruence.
  - assert (∀ t, t ∈ _TERRITORIES →
              _OWNER (exec (attack att tgt) w) !! t = Some (_CUR w)) as Hall.
    { intros t Ht. rewrite Ho. destruct (decide (t = tgt)) as [->|Hne].
      - apply lookup_insert_eq.
      - rewrite lookup_insert_ne by done. by apply Hrest. }
    destruct (game_over_by_owner (exec (attack att tgt) w) (_CUR w))
      as (r & -> & Hiff).
    + intros t Ht. rewrite (Hall t Ht). by eexists.
    + by apply Hall.
    + f_equal. by apply Hiff.
Qed.

Lemma endgame_inv : inv 2 endgame.
Proof.
  pose proof forced_inv as Hinv.
  constructor.
  - exact (inv_players _ _ Hinv).
  - exact (inv_cur _ _ Hinv).
  - intros t Ht. unfold endgame. cbn [_OWNER set_OWNER].
    destruct (decide (t = "Alaska")) as [->|Hne].
    + exists 1. rewrite lookup_insert_eq. split; [done|lia].
    + rewrite lookup_insert_ne, lookup_fmap by done.
      destruct (inv_owner _ _ Hinv t Ht) as (p & -> & _).
      exists 0. split; [done|lia].
  - exact (inv_troops _ _ Hinv).
  - constructor.
    + exact (store_graph _ (inv_store _ _ Hinv)).
    + intros t. unfold endgame. cbn [_OWNER set_OWNER].
      destruct (decide (t = "Alaska")) as [->|Hne].
      * intros _. rewrite _TERRITORIES_value. right; left.
      * rewrite lookup_insert_ne, lookup_fmap, fmap_is_Some by done.
        exact (store_owner_dom _ (inv_store _ _ Hinv) t).
    + exact (store_troops_dom _ (inv_store _ _ Hinv)).
Qed.

Lemma last_capture_ends_game_example :
  eval game_over endgame = Ret false
  ∧ eval game_over (exec (attack "Alberta" "Alaska") endgame) = Ret true.
Proof.
  apply (last_capture_ends_game 2 endgame "Alberta" "Alaska").
  - exact endgame_inv.
  - vm_compute; reflexivity.
  - intros t Ht Hne. unfold endgame. cbn [_OWNER _CUR set_OWNER].
    rewrite lookup_insert_ne, lookup_fmap by done.
    destruct (inv_owner _ _ forced_inv t Ht) as (p & -> & _).
    vm_compute; reflexivity.
Defined.
